(** * An Othello agent: minimax and alpha-beta search over a shared cache

    Shallow embedding of [agent.py].  The search procedures are translated
    function by function; the module-level dictionary [cached] becomes an
    explicit finite map threaded through every call, Python's [float("inf")]
    becomes the two extra points of [ext], and the rules engine imported from
    [othello_shared] is an interface ([OthelloShared]) with one instance
    ([othello_rules]), the game itself, used for every concrete evaluation. *)

From Stdlib Require Import ZArith List Bool Lia Sorted.
From stdpp Require Import base option list gmap.

Local Open Scope Z_scope.

(** ** Values *)

(** Python numbers as the search uses them: the integers returned by
    [compute_utility], and [-inf] / [inf]. *)
Inductive ext : Type :=
  | NegInf
  | Fin (z : Z)
  | PosInf.

#[global] Instance ext_eq_dec : EqDecision ext.
Proof. solve_decision. Defined.

(** [a < b] on Python numbers. *)
Definition ext_ltb (a b : ext) : bool :=
  match a, b with
  | NegInf, NegInf => false
  | NegInf, _ => true
  | Fin _, NegInf => false
  | Fin x, Fin y => x <? y
  | Fin _, PosInf => true
  | PosInf, _ => false
  end.

(** [a <= b] on Python numbers. *)
Definition ext_leb (a b : ext) : bool := negb (ext_ltb b a).

(** [max(a, b)]: Python returns the first argument unless the second is
    strictly greater. *)
Definition ext_max (a b : ext) : ext := if ext_ltb a b then b else a.

(** [min(a, b)]: Python returns the first argument unless the second is
    strictly smaller. *)
Definition ext_min (a b : ext) : ext := if ext_ltb b a then b else a.

Definition ext_lt (a b : ext) : Prop := ext_ltb a b = true.
Definition ext_le (a b : ext) : Prop := ext_leb a b = true.

(** A move is the tuple [(column, row)]. *)
Definition move : Type := (Z * Z)%type.

(** What the loop variable [move] of a search node is bound to: a tuple
    [(i, j)] taken from [get_possible_moves], or, after the [# ordering]
    block has rebuilt the list, the two-element list [[(i, j), utility]]. *)
Inductive pymove : Type :=
  | MoveTuple (m : move)
  | ScoredEntry (m : move) (u : Z).

#[global] Instance pymove_eq_dec : EqDecision pymove.
Proof. solve_decision. Defined.

(** The Python values [move[0]] and [move[1]] can evaluate to. *)
Inductive pyval : Type :=
  | PyInt (z : Z)
  | PyTuple (m : move).

(** [move[0]] *)
Definition index0 (x : pymove) : pyval :=
  match x with
  | MoveTuple m => PyInt (fst m)
  | ScoredEntry m _ => PyTuple m
  end.

(** [move[1]] *)
Definition index1 (x : pymove) : pyval :=
  match x with
  | MoveTuple m => PyInt (snd m)
  | ScoredEntry _ u => PyInt u
  end.

(** ** Outcomes *)

(** A call returns a value, raises [TypeError], or (in the model only) runs
    out of recursion fuel. *)
Inductive outcome (A : Type) : Type :=
  | Ret (a : A)
  | TypeError
  | OutOfFuel.

Arguments Ret {A} a.
Arguments TypeError {A}.
Arguments OutOfFuel {A}.

Definition bind {A B : Type} (c : outcome A) (k : A -> outcome B) : outcome B :=
  match c with
  | Ret a => k a
  | TypeError => TypeError
  | OutOfFuel => OutOfFuel
  end.

Notation "'do' x <- c ; k" := (bind c (fun x => k))
  (at level 10, x name, c at level 100, k at level 200).
Notation "'do' ' p <- c ; k" := (bind c (fun p => k))
  (at level 10, p pattern, c at level 100, k at level 200).

(** What a call returns, the dictionary it leaves behind set aside. *)
Definition answer {A S : Type} (c : outcome (A * S)) : outcome A :=
  do '(a, _) <- c; Ret a.

(** ** The rules engine *)

(** The three functions of [othello_shared] that [agent.py] calls.  Boards
    are hashable values (they are the keys of [cached]). *)
Class OthelloShared := {
  board : Type;
  board_eq_dec :: EqDecision board;
  board_countable :: Countable board;
  get_possible_moves : board -> Z -> list move;
  play_move : board -> Z -> Z -> Z -> board;
  get_score : board -> Z * Z
}.

(** A search result [(best_move, value)]. *)
Definition result : Type := (option pymove * ext)%type.

(** The module-level dictionary [cached = {}]. *)
Abbreviation cache := (gmap board result).

Section Agent.
Context {rules : OthelloShared}.

(** Modelled from the spec: [play_move] of [othello_shared] takes the column
    and the row as integers ("a coordinate pair (column, row)"); called with
    anything else it cannot index the board and raises [TypeError]. *)
Definition play_move_py (b : board) (color : Z) (x y : pyval) : outcome board :=
  match x, y with
  | PyInt i, PyInt j => Ret (play_move b color i j)
  | _, _ => TypeError
  end.

(** [compute_utility] *)
Definition compute_utility (b : board) (color : Z) : Z :=
  let score := get_score b in
  if color =? 1 then fst score - snd score
  else snd score - fst score.

(** The [if color == 1: opponent = 2 else: opponent = 1] block. *)
Definition opponent_of (color : Z) : Z := if color =? 1 then 2 else 1.

(** *** compute_heuristic *)

(** [potential_moves[move] = util_diff] on a dictionary kept in insertion
    order: an existing key keeps its place. *)
Fixpoint dict_set (d : list (move * Z)) (k : move) (v : Z) : list (move * Z) :=
  match d with
  | [] => [(k, v)]
  | (k', v') :: d' =>
      if decide (k' = k) then (k, v) :: d' else (k', v') :: dict_set d' k v
  end.

(** The first loop of [compute_heuristic]. *)
Fixpoint heuristic_filter (b : board) (color opponent : Z) (moves : list move)
    (potential_moves : list (move * Z)) : list (move * Z) :=
  match moves with
  | [] => potential_moves
  | mv :: rest =>
      let next_board := play_move b color (fst mv) (snd mv) in
      let movability := Z.of_nat (length (get_possible_moves next_board opponent)) in
      if (movability =? 0)
           && (Z.abs (compute_utility next_board opponent)
                 <? Z.abs (compute_utility b color))
      then heuristic_filter b color opponent rest potential_moves
      else
        let util_diff :=
          Z.abs (compute_utility b color)
          - Z.abs (compute_utility next_board opponent) in
        if util_diff <? 0
        then heuristic_filter b color opponent rest potential_moves
        else heuristic_filter b color opponent rest
               (dict_set potential_moves mv util_diff)
  end.

(** The second loop of [compute_heuristic]. *)
Fixpoint heuristic_pick (d : list (move * Z)) (value : ext)
    (best_move : option move) : option move :=
  match d with
  | [] => best_move
  | (mv, v) :: d' =>
      if ext_ltb value (Fin v) then heuristic_pick d' (Fin v) (Some mv)
      else heuristic_pick d' value best_move
  end.

(** The two shapes [compute_heuristic] returns: the tuple of its first
    [return], and the bare [best_move] of its last. *)
Inductive heuristic_result : Type :=
  | HeuristicPair (best_move : option move) (value : Z)
  | HeuristicMove (best_move : option move).

(** [compute_heuristic] *)
Definition compute_heuristic (b : board) (color : Z) : heuristic_result :=
  let moves := get_possible_moves b color in
  match moves with
  | [] => HeuristicPair None (compute_utility b color)
  | _ =>
      let opponent := opponent_of color in
      let potential_moves := heuristic_filter b color opponent moves [] in
      HeuristicMove (heuristic_pick potential_moves NegInf None)
  end.

(** *** The [# caching] block *)

(** [if next_board in cached: ... = cached[next_board]
     else: ... = child(next_board, ...); cached[next_board] = (...)] *)
Definition cached_or (child : board -> cache -> outcome (result * cache))
    (next_board : board) (cached : cache) : outcome (result * cache) :=
  match cached !! next_board with
  | Some r => Ret (r, cached)
  | None =>
      do '(r, cached') <- child next_board cached;
      Ret (r, <[next_board := r]> cached')
  end.

(** *** Minimax *)

(** The [for move in moves] loop of [minimax_min_node]. *)
Fixpoint minimax_min_loop (child : board -> cache -> outcome (result * cache))
    (b : board) (color : Z) (moves : list pymove)
    (value : ext) (best_move : option pymove) (cached : cache)
    : outcome (result * cache) :=
  match moves with
  | [] => Ret ((best_move, value), cached)
  | mv :: rest =>
      do next_board <- play_move_py b color (index0 mv) (index1 mv);
      do '((_, next_value), cached1) <- cached_or child next_board cached;
      if ext_ltb next_value value
      then minimax_min_loop child b color rest next_value (Some mv) cached1
      else minimax_min_loop child b color rest value best_move cached1
  end.

(** The [for move in moves] loop of [minimax_max_node]. *)
Fixpoint minimax_max_loop (child : board -> cache -> outcome (result * cache))
    (b : board) (color : Z) (moves : list pymove)
    (value : ext) (best_move : option pymove) (cached : cache)
    : outcome (result * cache) :=
  match moves with
  | [] => Ret ((best_move, value), cached)
  | mv :: rest =>
      do next_board <- play_move_py b color (index0 mv) (index1 mv);
      do '((_, next_value), cached1) <- cached_or child next_board cached;
      if ext_ltb value next_value
      then minimax_max_loop child b color rest next_value (Some mv) cached1
      else minimax_max_loop child b color rest value best_move cached1
  end.

(** [if not moves or limit == 0] *)
Definition terminal (moves : list move) (limit : Z) : bool :=
  match moves with [] => true | _ => limit =? 0 end.

(** [minimax_min_node] and [minimax_max_node].  [fuel] bounds the depth of
    the Python call stack; the terminal test needs none. *)
Fixpoint minimax_min_node (fuel : nat) (b : board) (color limit caching : Z)
    (cached : cache) {struct fuel} : outcome (result * cache) :=
  let moves := get_possible_moves b color in
  if terminal moves limit
  then Ret ((None, Fin (compute_utility b color)), cached)
  else
    match fuel with
    | O => OutOfFuel
    | S fuel' =>
        let opponent := opponent_of color in
        minimax_min_loop
          (fun next_board c =>
             minimax_max_node fuel' next_board opponent (limit - 1) caching c)
          b color (map MoveTuple moves) PosInf None cached
    end
with minimax_max_node (fuel : nat) (b : board) (color limit caching : Z)
    (cached : cache) {struct fuel} : outcome (result * cache) :=
  let moves := get_possible_moves b color in
  if terminal moves limit
  then Ret ((None, Fin (compute_utility b color)), cached)
  else
    match fuel with
    | O => OutOfFuel
    | S fuel' =>
        let opponent := opponent_of color in
        minimax_max_loop
          (fun next_board c =>
             minimax_min_node fuel' next_board opponent (limit - 1) caching c)
          b color (map MoveTuple moves) NegInf None cached
    end.

(** [select_move_minimax]: the move component, and the dictionary as the
    call leaves it. *)
Definition select_move_minimax (fuel : nat) (b : board) (color limit caching : Z)
    (cached : cache) : outcome (option pymove * cache) :=
  do '((best_move, _), cached') <- minimax_max_node fuel b color limit caching cached;
  Ret (best_move, cached').

(** *** Alpha-beta *)

(** [sorted(ordered_moves, key=lambda x: x[1], reverse=True)]: descending by
    the utility, entries of equal utility in their original order. *)
Fixpoint insert_desc (x : move * Z) (l : list (move * Z)) : list (move * Z) :=
  match l with
  | [] => [x]
  | y :: l' => if snd x <? snd y then y :: insert_desc x l' else x :: l
  end.

Definition sorted_desc (l : list (move * Z)) : list (move * Z) :=
  foldr insert_desc [] l.

(** The [# ordering] block: with [ordering] falsy the list is left as it is;
    otherwise it is replaced by the sorted list of [[(i, j), utility]]
    entries. *)
Definition ordering_block (b : board) (color ordering : Z) (moves : list move)
    : list pymove :=
  if ordering =? 0 then map MoveTuple moves
  else
    let ordered_moves :=
      map (fun mv =>
             (mv, compute_utility (play_move b color (fst mv) (snd mv)) color))
          moves in
    map (fun e => ScoredEntry (fst e) (snd e)) (sorted_desc ordered_moves).

(** The [for move in moves] loop of [alphabeta_min_node]. *)
Fixpoint alphabeta_min_loop
    (child : board -> ext -> ext -> cache -> outcome (result * cache))
    (b : board) (color : Z) (moves : list pymove) (alpha beta : ext)
    (value : ext) (best_move : option pymove) (cached : cache)
    : outcome (result * cache) :=
  match moves with
  | [] => Ret ((best_move, value), cached)
  | mv :: rest =>
      do next_board <- play_move_py b color (index0 mv) (index1 mv);
      do '((_, next_value), cached1) <-
         cached_or (fun nb c => child nb alpha beta c) next_board cached;
      let '(value1, best_move1) :=
        if ext_ltb next_value value then (next_value, Some mv)
        else (value, best_move) in
      if ext_leb value1 alpha then Ret ((best_move1, value1), cached1)
      else alphabeta_min_loop child b color rest alpha (ext_min beta value1)
             value1 best_move1 cached1
  end.

(** The [for move in moves] loop of [alphabeta_max_node]. *)
Fixpoint alphabeta_max_loop
    (child : board -> ext -> ext -> cache -> outcome (result * cache))
    (b : board) (color : Z) (moves : list pymove) (alpha beta : ext)
    (value : ext) (best_move : option pymove) (cached : cache)
    : outcome (result * cache) :=
  match moves with
  | [] => Ret ((best_move, value), cached)
  | mv :: rest =>
      do next_board <- play_move_py b color (index0 mv) (index1 mv);
      do '((_, next_value), cached1) <-
         cached_or (fun nb c => child nb alpha beta c) next_board cached;
      let '(value1, best_move1) :=
        if ext_ltb value next_value then (next_value, Some mv)
        else (value, best_move) in
      if ext_leb beta value1 then Ret ((best_move1, value1), cached1)
      else alphabeta_max_loop child b color rest (ext_max alpha value1) beta
             value1 best_move1 cached1
  end.

(** [alphabeta_min_node] and [alphabeta_max_node]. *)
Fixpoint alphabeta_min_node (fuel : nat) (b : board) (color : Z)
    (alpha beta : ext) (limit caching ordering : Z) (cached : cache)
    {struct fuel} : outcome (result * cache) :=
  let moves := get_possible_moves b color in
  if terminal moves limit
  then Ret ((None, Fin (compute_utility b color)), cached)
  else
    match fuel with
    | O => OutOfFuel
    | S fuel' =>
        let opponent := opponent_of color in
        alphabeta_min_loop
          (fun next_board a b' c =>
             alphabeta_max_node fuel' next_board opponent a b' (limit - 1)
               caching ordering c)
          b color (ordering_block b color ordering moves) alpha beta
          PosInf None cached
    end
with alphabeta_max_node (fuel : nat) (b : board) (color : Z)
    (alpha beta : ext) (limit caching ordering : Z) (cached : cache)
    {struct fuel} : outcome (result * cache) :=
  let moves := get_possible_moves b color in
  if terminal moves limit
  then Ret ((None, Fin (compute_utility b color)), cached)
  else
    match fuel with
    | O => OutOfFuel
    | S fuel' =>
        let opponent := opponent_of color in
        alphabeta_max_loop
          (fun next_board a b' c =>
             alphabeta_min_node fuel' next_board opponent a b' (limit - 1)
               caching ordering c)
          b color (ordering_block b color ordering moves) alpha beta
          NegInf None cached
    end.

(** [select_move_alphabeta] *)
Definition select_move_alphabeta (fuel : nat) (b : board)
    (color limit caching ordering : Z) (cached : cache)
    : outcome (option pymove * cache) :=
  do '((best_move, _), cached') <-
     alphabeta_max_node fuel b color NegInf PosInf limit caching ordering cached;
  Ret (best_move, cached').

(** The part of one turn of [run_ai] that reaches the search: the parsed
    arguments go to the engine chosen by [minimax] as they are. *)
Definition run_ai_select (fuel : nat) (color limit minimax caching ordering : Z)
    (b : board) (cached : cache) : outcome (option pymove * cache) :=
  if minimax =? 1 then select_move_minimax fuel b color limit caching cached
  else select_move_alphabeta fuel b color limit caching ordering cached.

(** The turn of [run_ai] from the search to the answer sent to the manager:
    [movei, movej = select_move_...(...)] unpacks what the search returned,
    which raises [TypeError] on [None], and the two components are what
    [print("{} {}".format(movei, movej))] writes. *)
Definition run_ai_turn (fuel : nat) (color limit minimax caching ordering : Z)
    (b : board) (cached : cache) : outcome ((pyval * pyval) * cache) :=
  do '(best_move, cached') <-
     run_ai_select fuel color limit minimax caching ordering b cached;
  match best_move with
  | None => TypeError
  | Some x => Ret ((index0 x, index1 x), cached')
  end.

End Agent.

(** ** The game *)

(** [othello_shared] is not among the sources.  Its functions are modelled
    here on square boards given as a list of rows, each cell [0] (empty),
    [1] (dark) or [2] (light). *)
Module Othello.

Definition grid : Type := list (list Z).

(** [board[v][u]] for [0 <= u, v]. *)
Definition cell (b : grid) (u v : Z) : Z :=
  nth (Z.to_nat u) (nth (Z.to_nat v) b []) 0.

(** [new_board[v][u] = player] *)
Definition set_cell (b : grid) (u v player : Z) : grid :=
  alter (fun row => <[Z.to_nat u := player]> row) (Z.to_nat v) b.

(** [range(len(board))] *)
Definition indices (b : grid) : list Z :=
  map Z.of_nat (seq 0 (length b)).

Definition in_range (b : grid) (u v : Z) : bool :=
  (0 <=? u) && (u <? Z.of_nat (length b))
  && (0 <=? v) && (v <? Z.of_nat (length b)).

(** The eight directions, in the order [find_lines] tries them. *)
Definition directions : list (Z * Z) :=
  [(0, 1); (1, 1); (1, 0); (1, -1); (0, -1); (-1, -1); (-1, 0); (-1, 1)].

(** Modelled from the spec: the inner walk of [find_lines] of
    [othello_shared]: from [(u, v)] along one direction over the opponent's
    disks; the line counts when the walk ends on a disk of [player].  The
    walk leaves the board within [length b] steps, which is the fuel
    [find_lines] gives it. *)
Fixpoint walk (steps : nat) (b : grid) (player u v xdir ydir : Z)
    (line : list move) : option (list move) :=
  match steps with
  | O => None
  | S steps' =>
      if in_range b u v then
        if cell b u v =? 0 then None
        else if cell b u v =? player then
          match line with [] => None | _ => Some line end
        else walk steps' b player (u + xdir) (v + ydir) xdir ydir
               (line ++ [(u, v)])
      else None
  end.

(** Modelled from the spec: [find_lines] of [othello_shared], the lines of
    opponent disks that a disk of [player] at column [i], row [j] would
    capture. *)
Definition find_lines (b : grid) (i j player : Z) : list (list move) :=
  omap (fun d : Z * Z =>
          walk (S (length b)) b player (i + fst d) (j + snd d) (fst d) (snd d) [])
       directions.

(** Modelled from the spec: [get_possible_moves] of [othello_shared]
    ("legalMoves(board, color)"): the empty cells, column by column, where
    [player] captures at least one line. *)
Definition get_possible_moves (b : grid) (player : Z) : list move :=
  i ← indices b;
  j ← indices b;
  if (cell b i j =? 0)
       && match find_lines b i j player with [] => false | _ => true end
  then [(i, j)] else [].

(** Modelled from the spec: [play_move] of [othello_shared]
    ("applyMove(board, color, move)"): the disk is placed and every captured
    line is turned over. *)
Definition play_move (b : grid) (player i j : Z) : grid :=
  let lines := find_lines b i j player in
  foldl (fun nb uv => set_cell nb (fst uv) (snd uv) player)
        (set_cell b i j player) (concat lines).

(** Number of cells [board[i][j]], [i] and [j] in [range(len(board))],
    that hold [p]. *)
Definition count_cells (b : grid) (p : Z) : Z :=
  Z.of_nat (length (filter (fun ij : Z * Z => cell b (snd ij) (fst ij) = p)
                           (i ← indices b; j ← indices b; [(i, j)]))).

(** Modelled from the spec: [get_score] of [othello_shared]
    ("score(board) -> (countA, countB)"). *)
Definition get_score (b : grid) : Z * Z :=
  (count_cells b 1, count_cells b 2).

(** Every row has [k] cells. *)
Definition rows_of_length (k : nat) (b : grid) : bool :=
  forallb (fun row => Nat.eqb (length row) k) b.

(** Every row is as long as the board is high. *)
Definition square (b : grid) : bool := rows_of_length (length b) b.

(** Number of empty cells. *)
Definition empties (b : grid) : nat :=
  length (filter (fun x => x = 0) (concat b)).

(** Empty cells of one row. *)
Definition row_empties (row : list Z) : nat :=
  length (filter (fun x => x = 0) row).

(** The opening position on a [4 x 4] board. *)
Definition start4 : grid :=
  [[0; 0; 0; 0];
   [0; 2; 1; 0];
   [0; 1; 2; 0];
   [0; 0; 0; 0]].

(** A position five moves from the end of a [4 x 4] game. *)
Definition late4 : grid :=
  [[0; 0; 1; 1];
   [0; 1; 1; 1];
   [1; 1; 2; 1];
   [0; 2; 0; 2]].

(** A full [4 x 4] board. *)
Definition full4 : grid :=
  [[1; 1; 1; 1];
   [1; 2; 2; 1];
   [2; 2; 1; 1];
   [2; 1; 1; 2]].

End Othello.

(** The game as the rules engine of the agent. *)
#[global] Instance othello_rules : OthelloShared := {|
  board := Othello.grid;
  get_possible_moves := Othello.get_possible_moves;
  play_move := Othello.play_move;
  get_score := Othello.get_score
|}.

(** The dictionary as a depth-1 minimax search for player 2 on
    [Othello.late4] leaves it, started empty with [caching = 0]. *)
Definition cached_after_depth1 : cache :=
  match select_move_minimax 1 Othello.late4 2 1 0 ∅ with
  | Ret (_, cached') => cached'
  | _ => ∅
  end.

(** [Othello.late4] after light plays [(0, 0)], dark [(0, 1)] and light
    [(1, 0)]; dark is to move and has the moves [(0, 3)] and [(2, 3)]. *)
Definition late4_cut : board :=
  play_move (play_move (play_move Othello.late4 2 0 0) 1 0 1) 2 1 0.

(** The dictionary as a depth-4 alpha-beta search for player 2 on
    [Othello.late4] leaves it, started empty with [caching = 0] and
    [ordering = 0]. *)
Definition cached_after_alphabeta4 : cache :=
  match select_move_alphabeta 4 Othello.late4 2 4 0 0 ∅ with
  | Ret (_, cached') => cached'
  | _ => ∅
  end.

(** ** Notions used to state the properties *)

Section Reference.
Context {rules : OthelloShared}.

(** Every legal move applied to a valid board gives a valid board with a
    smaller measure (for the game: one empty cell fewer). *)
Definition cell_filling (valid : board -> Prop) (measure : board -> nat) : Prop :=
  forall b color i j,
    valid b -> (i, j) ∈ get_possible_moves b color ->
    valid (play_move b color i j)
    /\ (measure (play_move b color i j) < measure b)%nat.

(** The call stack allowed by [fuel] is deep enough for the search below
    [b]: the depth limit bounds it, or the measure of the board does. *)
Definition enough (valid : board -> Prop) (measure : board -> nat)
    (fuel : nat) (b : board) (limit : Z) : Prop :=
  0 <= limit <= Z.of_nat fuel \/ (valid b /\ (measure b <= fuel)%nat).

(** The returned move is the pass sentinel or a legal move of the node. *)
Definition pass_or_legal (b : board) (color : Z) (best_move : option pymove)
    : Prop :=
  best_move = None
  \/ exists m, best_move = Some (MoveTuple m) /\ m ∈ get_possible_moves b color.

(** The values that the children of a node yield, in the order of the
    node's loop, every one through the [# caching] block and the dictionary
    handed on from one to the next. *)
Fixpoint child_values (child : board -> cache -> outcome (result * cache))
    (b : board) (color : Z) (moves : list move) (cached : cache)
    : outcome (list ext * cache) :=
  match moves with
  | [] => Ret ([], cached)
  | m :: rest =>
      do '((_, v), cached1) <-
         cached_or child (play_move b color (fst m) (snd m)) cached;
      do '(vs, cached2) <- child_values child b color rest cached1;
      Ret (v :: vs, cached2)
  end.


(** The boards of the search tree below a node, in the order the minimax
    search meets them: each successor, followed by the tree below it. *)
Fixpoint subtree (fuel : nat) (b : board) (color limit : Z) : list board :=
  if terminal (get_possible_moves b color) limit then []
  else
    match fuel with
    | O => []
    | S fuel' =>
        m ← get_possible_moves b color;
        let next_board := play_move b color (fst m) (snd m) in
        next_board :: subtree fuel' next_board (opponent_of color) (limit - 1)
    end.

(** None of [boards] is a key of the dictionary. *)
Definition unseen (cached : cache) (boards : list board) : Prop :=
  forall x, x ∈ boards -> cached !! x = None.

(** From [cached] to [cached'] only boards of [boards] became keys. *)
Definition grows_within (boards : list board) (cached cached' : cache) : Prop :=
  forall x, x ∉ boards -> cached !! x = None -> cached' !! x = None.

(** What alpha-beta with window [(alpha, beta)] owes to the minimax value
    [v] of a node: its value [av] is on the same side of the window, and is
    [v] when [v] lies inside. *)
Definition within (alpha beta v av : ext) : Prop :=
  (ext_ltb alpha v = false -> ext_ltb alpha av = false)
  /\ (ext_ltb v beta = false -> ext_ltb av beta = false)
  /\ (ext_ltb alpha v = true -> ext_ltb v beta = true -> av = v).

(** State of a maximize loop of alpha-beta against the same loop of
    minimax: [alpha] is the larger of the node's [alpha0] and either running
    value, and once it exceeds [alpha0] the two loops agree. *)
Definition max_loops_agree (alpha0 beta alpha vm va : ext)
    (bm ba : option pymove) : Prop :=
  ext_ltb alpha0 beta = true
  /\ ext_ltb alpha beta = true
  /\ ext_ltb alpha va = false
  /\ ext_ltb alpha vm = false
  /\ ext_ltb alpha alpha0 = false
  /\ (ext_ltb alpha0 alpha = true -> vm = alpha /\ va = alpha /\ ba = bm).

(** State of a minimize loop of alpha-beta against the same loop of
    minimax. *)
Definition min_loops_agree (alpha beta0 beta vm va : ext)
    (bm ba : option pymove) : Prop :=
  ext_ltb alpha beta0 = true
  /\ ext_ltb alpha beta = true
  /\ ext_ltb va beta = false
  /\ ext_ltb vm beta = false
  /\ ext_ltb beta0 beta = false
  /\ (ext_ltb beta beta0 = true -> vm = beta /\ va = beta /\ ba = bm).

(** What a minimax node, run where no lookup can hit, guarantees: a finite
    value, and a cache that grew within the node's tree. *)
Definition minimax_fresh (sub : board -> list board)
    (node : board -> cache -> outcome (result * cache)) : Prop :=
  forall nb (cached : cache) r cached',
    NoDup (sub nb) -> unseen cached (sub nb) ->
    node nb cached = Ret (r, cached') ->
    (exists z, snd r = Fin z) /\ grows_within (sub nb) cached cached'.

(** The boards below the children [ms] of a node. *)
Definition kids (sub : board -> list board) (b : board) (color : Z)
    (ms : list move) : list board :=
  m ← ms;
  let next_board := play_move b color (fst m) (snd m) in
  next_board :: sub next_board.

(** What an alpha-beta node owes to the minimax node on the same board,
    both run where no lookup can hit. *)
Definition alphabeta_agrees (sub : board -> list board)
    (nodeM : board -> cache -> outcome (result * cache))
    (nodeA : board -> ext -> ext -> cache -> outcome (result * cache)) : Prop :=
  forall nb (cm ca : cache) r cm',
    NoDup (sub nb) -> unseen cm (sub nb) -> unseen ca (sub nb) ->
    nodeM nb cm = Ret (r, cm') ->
    forall alpha beta, ext_ltb alpha beta = true ->
    exists am av ca',
      nodeA nb alpha beta ca = Ret ((am, av), ca')
      /\ grows_within (sub nb) ca ca'
      /\ within alpha beta (snd r) av
      /\ (ext_ltb alpha (snd r) = true -> ext_ltb (snd r) beta = true ->
          am = fst r).

(** Every value the dictionary holds is an integer, none is [inf] or
    [-inf]. *)
Definition cache_finite (cached : cache) : Prop :=
  forall k r, cached !! k = Some r -> exists z, snd r = Fin z.

(** [util_diff] of [compute_heuristic] for the move [m]. *)
Definition util_diff (b : board) (color : Z) (m : move) : Z :=
  Z.abs (compute_utility b color)
  - Z.abs (compute_utility (play_move b color (fst m) (snd m))
             (opponent_of color)).

(** The move [m] passes both [continue] tests of [compute_heuristic]. *)
Definition heuristic_keeps (b : board) (color : Z) (m : move) : bool :=
  let next_board := play_move b color (fst m) (snd m) in
  negb ((Z.of_nat (length (get_possible_moves next_board (opponent_of color)))
           =? 0)
        && (Z.abs (compute_utility next_board (opponent_of color))
              <? Z.abs (compute_utility b color)))
  && negb (util_diff b color m <? 0).

(** Whatever the dictionary holds for a successor of [b] is that
    successor's evaluation as a leaf for the opponent. *)
Definition leaves_cached (b : board) (color : Z) (cached : cache) : Prop :=
  forall m r,
    m ∈ get_possible_moves b color ->
    cached !! play_move b color (fst m) (snd m) = Some r ->
    snd r = Fin (compute_utility (play_move b color (fst m) (snd m))
                   (opponent_of color)).

(** The list the [# ordering] block sorts: every move with the utility of
    its successor for the mover. *)
Definition scored_moves (b : board) (color : Z) (moves : list move)
    : list (move * Z) :=
  map (fun mv => (mv, compute_utility (play_move b color (fst mv) (snd mv)) color))
      moves.

(** A node that leaves every entry of the dictionary where it was. *)
Definition keeps_entries (node : board -> cache -> outcome (result * cache))
    : Prop :=
  forall nb (c : cache) r c', node nb c = Ret (r, c') -> c ⊆ c'.

(** A node that, given a dictionary of integers, returns an integer and
    leaves a dictionary of integers. *)
Definition finite_node (node : board -> cache -> outcome (result * cache))
    : Prop :=
  forall nb (c : cache) r c',
    cache_finite c -> node nb c = Ret (r, c') ->
    (exists z, snd r = Fin z) /\ cache_finite c'.

(** The minimax value of the game tree below a node, computed without any
    cache: a node where the search stops is worth its utility for the
    player to move there, a maximize node the greatest and a minimize node
    the least of its children's values. *)
Fixpoint tree_value (fuel : nat) (maximize : bool) (b : board)
    (color limit : Z) : ext :=
  if terminal (get_possible_moves b color) limit
  then Fin (compute_utility b color)
  else
    match fuel with
    | O => Fin (compute_utility b color)
    | S fuel' =>
        let child m :=
          tree_value fuel' (negb maximize)
            (play_move b color (fst m) (snd m)) (opponent_of color)
            (limit - 1) in
        if maximize
        then foldl (fun acc m => ext_max acc (child m)) NegInf
               (get_possible_moves b color)
        else foldl (fun acc m => ext_min acc (child m)) PosInf
               (get_possible_moves b color)
    end.

(** A minimax node that, run where no lookup can hit, returns the value
    [tv] assigns to its board. *)
Definition minimax_exact (sub : board -> list board) (tv : board -> ext)
    (node : board -> cache -> outcome (result * cache)) : Prop :=
  forall nb (cached : cache) r cached',
    NoDup (sub nb) -> unseen cached (sub nb) ->
    node nb cached = Ret (r, cached') ->
    snd r = tv nb.

End Reference.

(** ** Order on Python numbers *)

Ltac ext_cases :=
  repeat match goal with
         | x : ext |- _ => destruct x; simpl in *; try discriminate
         end;
  repeat match goal with
         | H : context [(?x <? ?y)] |- _ => destruct (Z.ltb_spec x y); simpl in H
         | |- context [(?x <? ?y)] => destruct (Z.ltb_spec x y); simpl
         end;
  try discriminate; try reflexivity; try (f_equal; lia); try lia.

Lemma ext_ltb_irrefl a : ext_ltb a a = false.
Proof. ext_cases. Qed.

Lemma ext_ltb_trans a b c :
  ext_ltb a b = true -> ext_ltb b c = true -> ext_ltb a c = true.
Proof. intros; ext_cases. Qed.

Lemma ext_lt_le_trans a b c :
  ext_ltb a b = true -> ext_ltb c b = false -> ext_ltb a c = true.
Proof. intros; ext_cases. Qed.

Lemma ext_le_lt_trans a b c :
  ext_ltb b a = false -> ext_ltb b c = true -> ext_ltb a c = true.
Proof. intros; ext_cases. Qed.

Lemma ext_le_trans a b c :
  ext_ltb b a = false -> ext_ltb c b = false -> ext_ltb c a = false.
Proof. intros; ext_cases. Qed.

Lemma ext_lt_le a b : ext_ltb a b = true -> ext_ltb b a = false.
Proof. intros; ext_cases. Qed.

Lemma ext_le_antisym a b :
  ext_ltb a b = false -> ext_ltb b a = false -> a = b.
Proof. intros; ext_cases. Qed.

Create HintDb ext_facts.
#[local] Hint Resolve ext_lt_le_trans ext_le_lt_trans ext_le_trans ext_lt_le
  ext_ltb_trans ext_ltb_irrefl : ext_facts.

Ltac ext_auto := eauto 4 with ext_facts.

(** ** Unfolding the nodes *)

Section Unfold.
Context {rules : OthelloShared}.

Lemma minimax_max_node_terminal fuel b color limit caching (cached : cache) :
  terminal (get_possible_moves b color) limit = true ->
  minimax_max_node fuel b color limit caching cached
  = Ret ((None, Fin (compute_utility b color)), cached).
Proof. intros H. destruct fuel; simpl; rewrite H; reflexivity. Qed.

Lemma minimax_min_node_terminal fuel b color limit caching (cached : cache) :
  terminal (get_possible_moves b color) limit = true ->
  minimax_min_node fuel b color limit caching cached
  = Ret ((None, Fin (compute_utility b color)), cached).
Proof. intros H. destruct fuel; simpl; rewrite H; reflexivity. Qed.

Lemma alphabeta_max_node_terminal fuel b color alpha beta limit caching ordering
    (cached : cache) :
  terminal (get_possible_moves b color) limit = true ->
  alphabeta_max_node fuel b color alpha beta limit caching ordering cached
  = Ret ((None, Fin (compute_utility b color)), cached).
Proof. intros H. destruct fuel; simpl; rewrite H; reflexivity. Qed.

Lemma alphabeta_min_node_terminal fuel b color alpha beta limit caching ordering
    (cached : cache) :
  terminal (get_possible_moves b color) limit = true ->
  alphabeta_min_node fuel b color alpha beta limit caching ordering cached
  = Ret ((None, Fin (compute_utility b color)), cached).
Proof. intros H. destruct fuel; simpl; rewrite H; reflexivity. Qed.

Lemma minimax_max_node_step fuel b color limit caching (cached : cache) :
  terminal (get_possible_moves b color) limit = false ->
  minimax_max_node (S fuel) b color limit caching cached
  = minimax_max_loop
      (fun nb c => minimax_min_node fuel nb (opponent_of color) (limit - 1) caching c)
      b color (map MoveTuple (get_possible_moves b color)) NegInf None cached.
Proof. intros H. simpl. rewrite H. reflexivity. Qed.

Lemma minimax_min_node_step fuel b color limit caching (cached : cache) :
  terminal (get_possible_moves b color) limit = false ->
  minimax_min_node (S fuel) b color limit caching cached
  = minimax_min_loop
      (fun nb c => minimax_max_node fuel nb (opponent_of color) (limit - 1) caching c)
      b color (map MoveTuple (get_possible_moves b color)) PosInf None cached.
Proof. intros H. simpl. rewrite H. reflexivity. Qed.

Lemma alphabeta_max_node_step fuel b color alpha beta limit caching ordering
    (cached : cache) :
  terminal (get_possible_moves b color) limit = false ->
  alphabeta_max_node (S fuel) b color alpha beta limit caching ordering cached
  = alphabeta_max_loop
      (fun nb a b' c =>
         alphabeta_min_node fuel nb (opponent_of color) a b' (limit - 1)
           caching ordering c)
      b color (ordering_block b color ordering (get_possible_moves b color))
      alpha beta NegInf None cached.
Proof. intros H. simpl. rewrite H. reflexivity. Qed.

Lemma alphabeta_min_node_step fuel b color alpha beta limit caching ordering
    (cached : cache) :
  terminal (get_possible_moves b color) limit = false ->
  alphabeta_min_node (S fuel) b color alpha beta limit caching ordering cached
  = alphabeta_min_loop
      (fun nb a b' c =>
         alphabeta_max_node fuel nb (opponent_of color) a b' (limit - 1)
           caching ordering c)
      b color (ordering_block b color ordering (get_possible_moves b color))
      alpha beta PosInf None cached.
Proof. intros H. simpl. rewrite H. reflexivity. Qed.

End Unfold.

(** ** Utility *)

Section Utility.
Context {rules : OthelloShared}.

(** C5: the utility of a board for player 1 is the negation of its utility
    for player 2; each is the disk-count differential seen from that
    player. *)
Theorem compute_utility_antisymmetric (b : board) :
  compute_utility b 1 = - compute_utility b 2
  /\ compute_utility b 1 = fst (get_score b) - snd (get_score b)
  /\ compute_utility b 2 = snd (get_score b) - fst (get_score b).
Proof. unfold compute_utility. simpl. lia. Qed.

(** C4: when [color] has no legal move, both engines return the pass
    sentinel [None] with the value [compute_utility board color], whatever
    the depth limit, the flags and the cache, and raise nothing. *)
Theorem no_legal_move_is_pass (b : board) (color : Z) :
  get_possible_moves b color = [] ->
  forall fuel limit caching ordering (cached : cache),
    minimax_max_node fuel b color limit caching cached
    = Ret ((None, Fin (compute_utility b color)), cached)
    /\ alphabeta_max_node fuel b color NegInf PosInf limit caching ordering cached
      = Ret ((None, Fin (compute_utility b color)), cached)
    /\ select_move_minimax fuel b color limit caching cached = Ret (None, cached)
    /\ select_move_alphabeta fuel b color limit caching ordering cached
      = Ret (None, cached).
Proof.
  intros Hnone fuel limit caching ordering cached.
  assert (Ht : terminal (get_possible_moves b color) limit = true)
    by (rewrite Hnone; reflexivity).
  unfold select_move_minimax, select_move_alphabeta.
  rewrite minimax_max_node_terminal, alphabeta_max_node_terminal by exact Ht.
  repeat split.
Qed.

End Utility.

Lemma no_legal_move_is_pass_full_board :
  get_possible_moves Othello.full4 1 = []
  /\ select_move_minimax 0 Othello.full4 1 (-1) 0 ∅ = Ret (None, ∅)
  /\ select_move_alphabeta 0 Othello.full4 1 (-1) 0 1 ∅ = Ret (None, ∅).
Proof.
  split; [reflexivity |].
  pose proof (no_legal_move_is_pass Othello.full4 1 eq_refl 0%nat (-1) 0 1 ∅)
    as (_ & _ & Hm & _).
  pose proof (no_legal_move_is_pass Othello.full4 1 eq_refl 0%nat (-1) 0 1 ∅)
    as (_ & _ & _ & Ha).
  split; assumption.
Defined.

(** ** Every move of the game fills a cell *)

Module OthelloFacts.
Import Othello.

Lemma walk_found steps b player u v xdir ydir line l :
  walk steps b player u v xdir ydir line = Some l -> player <> 0.
Proof.
  revert u v line.
  induction steps as [|steps IH]; intros u v line; simpl; [discriminate |].
  destruct (in_range b u v); [| discriminate].
  destruct (Z.eqb_spec (cell b u v) 0) as [|Hne]; [discriminate |].
  destruct (Z.eqb_spec (cell b u v) player) as [<-|_].
  - intros _. exact Hne.
  - apply IH.
Qed.

Lemma find_lines_player b i j player :
  find_lines b i j player <> [] -> player <> 0.
Proof.
  intros Hne.
  destruct (find_lines b i j player) as [|l ls] eqn:E; [congruence |].
  assert (Hin : l ∈ find_lines b i j player) by (rewrite E; left).
  unfold find_lines in Hin.
  apply list_elem_of_omap in Hin as (d & _ & Hw).
  eapply walk_found, Hw.
Qed.

Lemma elem_of_indices b i :
  i ∈ indices b -> 0 <= i < Z.of_nat (length b).
Proof.
  unfold indices.
  intros (n & <- & Hn)%list_elem_of_In%in_map_iff.
  apply in_seq in Hn. lia.
Qed.

Lemma elem_of_get_possible_moves b player i j :
  (i, j) ∈ get_possible_moves b player ->
  0 <= i < Z.of_nat (length b) /\ 0 <= j < Z.of_nat (length b)
  /\ cell b i j = 0 /\ player <> 0.
Proof.
  unfold get_possible_moves.
  intros (i' & Hin & Hi)%list_elem_of_bind.
  apply list_elem_of_bind in Hin as (j' & Hin & Hj).
  destruct (Z.eqb_spec (cell b i' j') 0) as [Hc|]; simpl in Hin;
    [| by apply elem_of_nil in Hin].
  destruct (find_lines b i' j' player) eqn:E; [by apply elem_of_nil in Hin |].
  apply list_elem_of_singleton in Hin. injection Hin as -> ->.
  repeat split; try (by apply elem_of_indices); try assumption.
  - apply (elem_of_indices _ _ Hi).
  - apply (elem_of_indices _ _ Hj).
  - apply (find_lines_player b i' j'). rewrite E. discriminate.
Qed.

Lemma empties_cons row b :
  empties (row :: b) = (row_empties row + empties b)%nat.
Proof.
  unfold empties, row_empties. simpl. rewrite filter_app, length_app.
  reflexivity.
Qed.

Lemma row_empties_insert_le row n p :
  p <> 0 -> (row_empties (<[n := p]> row) <= row_empties row)%nat.
Proof.
  intros Hp. unfold row_empties. revert n.
  induction row as [|x row IH]; intros [|n]; simpl; try lia.
  - rewrite filter_cons_False by exact Hp.
    rewrite filter_cons. destruct (decide (x = 0)); simpl; lia.
  - rewrite !filter_cons. specialize (IH n).
    destruct (decide (x = 0)); simpl; lia.
Qed.

Lemma row_empties_insert_lt row n p :
  p <> 0 -> row !! n = Some 0 ->
  (row_empties (<[n := p]> row) < row_empties row)%nat.
Proof.
  intros Hp. unfold row_empties. revert n.
  induction row as [|x row IH]; intros [|n]; simpl; try discriminate.
  - intros [= ->]. rewrite filter_cons_False by exact Hp.
    rewrite filter_cons_True by reflexivity. simpl. lia.
  - intros H. rewrite !filter_cons. specialize (IH n H).
    destruct (decide (x = 0)); simpl; lia.
Qed.

Lemma empties_set_cell_le b u v p :
  p <> 0 -> (empties (set_cell b u v p) <= empties b)%nat.
Proof.
  intros Hp. unfold set_cell. generalize (Z.to_nat v) as n.
  induction b as [|row b IH]; intros [|n]; simpl; try lia.
  - rewrite !empties_cons.
    pose proof (row_empties_insert_le row (Z.to_nat u) p Hp). lia.
  - rewrite !empties_cons. apply Nat.add_le_mono_l, IH.
Qed.

Lemma empties_set_cell_lt b u v p row :
  p <> 0 -> b !! Z.to_nat v = Some row -> row !! Z.to_nat u = Some 0 ->
  (empties (set_cell b u v p) < empties b)%nat.
Proof.
  intros Hp. unfold set_cell. generalize (Z.to_nat v) as n.
  induction b as [|r b IH]; intros [|n]; simpl; try discriminate.
  - intros [= ->] Hu. rewrite !empties_cons.
    pose proof (row_empties_insert_lt row (Z.to_nat u) p Hp Hu). lia.
  - intros Hn Hu. rewrite !empties_cons.
    apply Nat.add_lt_mono_l, (IH n Hn Hu).
Qed.

Lemma rows_of_length_set_cell k b u v p :
  rows_of_length k b = true -> rows_of_length k (set_cell b u v p) = true.
Proof.
  unfold rows_of_length, set_cell. generalize (Z.to_nat v) as n.
  induction b as [|row b IH]; intros n; simpl; [reflexivity |].
  intros (Hrow & Hb)%andb_prop. destruct n as [|n]; simpl.
  - rewrite length_insert, Hrow, Hb. reflexivity.
  - rewrite Hrow. simpl. apply IH, Hb.
Qed.

Lemma square_set_cell b u v p :
  square b = true -> square (set_cell b u v p) = true.
Proof.
  unfold square. intros H.
  replace (length (set_cell b u v p)) with (length b)
    by (unfold set_cell; symmetry; apply length_alter).
  by apply rows_of_length_set_cell.
Qed.

Lemma square_lookup b n row :
  square b = true -> b !! n = Some row -> length row = length b.
Proof.
  unfold square, rows_of_length. intros Hsq Hn.
  rewrite forallb_forall in Hsq.
  apply Nat.eqb_eq, Hsq. apply list_elem_of_In. eapply list_elem_of_lookup_2, Hn.
Qed.

Lemma flips_keep (cells : list move) b p :
  p <> 0 -> square b = true ->
  let b' := foldl (fun nb uv => set_cell nb (fst uv) (snd uv) p) b cells in
  square b' = true /\ (empties b' <= empties b)%nat.
Proof.
  intros Hp. revert b.
  induction cells as [|uv cells IH]; intros b Hsq; simpl; [split; [done | lia] |].
  destruct (IH (set_cell b (fst uv) (snd uv) p)) as [Hs Hle].
  { by apply square_set_cell. }
  split; [exact Hs |].
  pose proof (empties_set_cell_le b (fst uv) (snd uv) p Hp). simpl in Hle. lia.
Qed.

(** A legal move keeps the board square and leaves one empty cell fewer at
    least. *)
Lemma play_move_fills b color i j :
  square b = true -> (i, j) ∈ get_possible_moves b color ->
  square (play_move b color i j) = true
  /\ (empties (play_move b color i j) < empties b)%nat.
Proof.
  intros Hsq (Hi & Hj & Hc & Hp)%elem_of_get_possible_moves.
  unfold play_move.
  destruct (flips_keep (concat (find_lines b i j color))
              (set_cell b i j color) color Hp) as [Hs Hle].
  { by apply square_set_cell. }
  split; [exact Hs |]. simpl in Hle.
  destruct (lookup_lt_is_Some_2 b (Z.to_nat j)) as [row Hrow]; [lia |].
  assert (Hlen : length row = length b) by (eapply square_lookup; eauto).
  destruct (lookup_lt_is_Some_2 row (Z.to_nat i)) as [x Hx]; [lia |].
  assert (x = 0) as ->.
  { unfold cell in Hc. rewrite (nth_lookup_Some _ _ _ _ Hrow) in Hc.
    rewrite (nth_lookup_Some _ _ _ _ Hx) in Hc. exact Hc. }
  pose proof (empties_set_cell_lt b i j color row Hp Hrow Hx). lia.
Qed.

End OthelloFacts.

Section Totality.
Context {rules : OthelloShared}.

Lemma cached_or_total child nb (cached : cache) :
  (forall c, exists r c', child nb c = Ret (r, c')) ->
  exists r c', cached_or child nb cached = Ret (r, c').
Proof.
  intros Hc. unfold cached_or.
  destruct (cached !! nb) as [r|]; [by eexists _, _ |].
  destruct (Hc cached) as (r & c' & ->). simpl. by eexists _, _.
Qed.

Ltac loop_total IH Hc :=
  let r := fresh "r" in let c1 := fresh "c1" in let E := fresh "E" in
  let nm := fresh "nm" in let nv := fresh "nv" in
  simpl;
  match goal with
  | |- context [cached_or ?ch ?nb ?c] =>
      destruct (cached_or_total ch nb c) as (r & c1 & E);
      [intros; apply Hc; left | rewrite E; destruct r as [nm nv]; simpl]
  end.

Ltac loop_total_finish Hbm :=
  eexists _, _, _; (split; [reflexivity |]);
  destruct Hbm as [->|(? & -> & ?)];
  try (by left); right; eexists; split; try reflexivity;
  try (by left); by right.

Ltac loop_total_step loop IH Hc :=
  match goal with
  | |- context [loop _ _ _ _ ?v ?bst ?c] =>
      let Hbm := fresh "Hbm" in
      destruct (IH (fun m' c' H => Hc m' c' (list_elem_of_further _ _ _ H))
                  v bst c) as (? & ? & ? & -> & Hbm);
      loop_total_finish Hbm
  end.

Lemma minimax_max_loop_total child b color ms :
  (forall m c, m ∈ ms ->
     exists r c', child (play_move b color (fst m) (snd m)) c = Ret (r, c')) ->
  forall value best (cached : cache),
  exists bm v c',
    minimax_max_loop child b color (map MoveTuple ms) value best cached
    = Ret ((bm, v), c')
    /\ (bm = best \/ exists m, bm = Some (MoveTuple m) /\ m ∈ ms).
Proof.
  induction ms as [|m ms IH]; intros Hc value best cached.
  - simpl. eexists _, _, _. split; [reflexivity | by left].
  - loop_total IH Hc.
    destruct (ext_ltb value nv); loop_total_step (@minimax_max_loop rules) IH Hc.
Qed.

Lemma minimax_min_loop_total child b color ms :
  (forall m c, m ∈ ms ->
     exists r c', child (play_move b color (fst m) (snd m)) c = Ret (r, c')) ->
  forall value best (cached : cache),
  exists bm v c',
    minimax_min_loop child b color (map MoveTuple ms) value best cached
    = Ret ((bm, v), c')
    /\ (bm = best \/ exists m, bm = Some (MoveTuple m) /\ m ∈ ms).
Proof.
  induction ms as [|m ms IH]; intros Hc value best cached.
  - simpl. eexists _, _, _. split; [reflexivity | by left].
  - loop_total IH Hc.
    destruct (ext_ltb nv value); loop_total_step (@minimax_min_loop rules) IH Hc.
Qed.

Ltac ab_loop_total_step loop IH Hc :=
  match goal with
  | |- context [loop _ _ _ _ ?a ?b ?v ?bst ?c] =>
      let Hbm := fresh "Hbm" in
      destruct (IH (fun m' a' b' c' H =>
                      Hc m' a' b' c' (list_elem_of_further _ _ _ H))
                  a b v bst c) as (? & ? & ? & -> & Hbm);
      loop_total_finish Hbm
  | |- _ =>
      eexists _, _, _; (split; [reflexivity |]);
      try (by left); right; eexists; split; try reflexivity; by left
  end.

Lemma alphabeta_max_loop_total child b color ms :
  (forall m a b' c, m ∈ ms ->
     exists r c', child (play_move b color (fst m) (snd m)) a b' c = Ret (r, c')) ->
  forall alpha beta value best (cached : cache),
  exists bm v c',
    alphabeta_max_loop child b color (map MoveTuple ms) alpha beta value best
      cached
    = Ret ((bm, v), c')
    /\ (bm = best \/ exists m, bm = Some (MoveTuple m) /\ m ∈ ms).
Proof.
  induction ms as [|m ms IH]; intros Hc alpha beta value best cached.
  - simpl. eexists _, _, _. split; [reflexivity | by left].
  - loop_total IH Hc.
    destruct (ext_ltb value nv);
      match goal with |- context [ext_leb ?x ?y] => destruct (ext_leb x y) end;
      ab_loop_total_step (@alphabeta_max_loop rules) IH Hc.
Qed.

Lemma alphabeta_min_loop_total child b color ms :
  (forall m a b' c, m ∈ ms ->
     exists r c', child (play_move b color (fst m) (snd m)) a b' c = Ret (r, c')) ->
  forall alpha beta value best (cached : cache),
  exists bm v c',
    alphabeta_min_loop child b color (map MoveTuple ms) alpha beta value best
      cached
    = Ret ((bm, v), c')
    /\ (bm = best \/ exists m, bm = Some (MoveTuple m) /\ m ∈ ms).
Proof.
  induction ms as [|m ms IH]; intros Hc alpha beta value best cached.
  - simpl. eexists _, _, _. split; [reflexivity | by left].
  - loop_total IH Hc.
    destruct (ext_ltb nv value);
      match goal with |- context [ext_leb ?x ?y] => destruct (ext_leb x y) end;
      ab_loop_total_step (@alphabeta_min_loop rules) IH Hc.
Qed.

Lemma terminal_false moves limit :
  terminal moves limit = false -> moves <> [] /\ limit <> 0.
Proof.
  destruct moves; simpl; [discriminate |].
  intros H%Z.eqb_neq. split; [discriminate | exact H].
Qed.

Section Fuel.
Variables (valid : board -> Prop) (measure : board -> nat).
Hypothesis fills : cell_filling valid measure.

Lemma enough_child fuel b color limit m :
  terminal (get_possible_moves b color) limit = false ->
  m ∈ get_possible_moves b color ->
  enough valid measure fuel b limit ->
  exists fuel', fuel = S fuel'
    /\ enough valid measure fuel' (play_move b color (fst m) (snd m)) (limit - 1).
Proof.
  intros [_ Hl]%terminal_false Hm [Hlim|[Hv Hmeas]].
  - destruct fuel as [|fuel']; [lia |]. exists fuel'. split; [reflexivity |].
    left. lia.
  - destruct m as [i j]. destruct (fills b color i j Hv Hm) as [Hv' Hlt].
    destruct fuel as [|fuel']; [lia |]. exists fuel'. split; [reflexivity |].
    right. simpl. split; [exact Hv' | lia].
Qed.

Lemma enough_S fuel b color limit :
  terminal (get_possible_moves b color) limit = false ->
  enough valid measure fuel b limit -> exists fuel', fuel = S fuel'.
Proof.
  intros Ht He.
  assert (exists m, m ∈ get_possible_moves b color) as [m Hm].
  { destruct (terminal_false _ _ Ht) as [Hne _].
    destruct (get_possible_moves b color) as [|m ms]; [done |].
    exists m. left. }
  destruct (enough_child fuel b color limit m Ht Hm He) as (fuel' & -> & _).
  by eexists.
Qed.

(** With enough fuel each of the four nodes returns, and returns the pass
    sentinel or one of the node's legal moves; the cache plays no part. *)
Lemma nodes_total fuel :
  forall b color limit caching (cached : cache),
    enough valid measure fuel b limit ->
    (exists bm v c',
        minimax_max_node fuel b color limit caching cached = Ret ((bm, v), c')
        /\ pass_or_legal b color bm)
    /\ (exists bm v c',
        minimax_min_node fuel b color limit caching cached = Ret ((bm, v), c')
        /\ pass_or_legal b color bm)
    /\ (forall alpha beta, exists bm v c',
        alphabeta_max_node fuel b color alpha beta limit caching 0 cached
        = Ret ((bm, v), c')
        /\ pass_or_legal b color bm)
    /\ (forall alpha beta, exists bm v c',
        alphabeta_min_node fuel b color alpha beta limit caching 0 cached
        = Ret ((bm, v), c')
        /\ pass_or_legal b color bm).
Proof.
  induction fuel as [|fuel IH]; intros b color limit caching cached He;
    destruct (terminal (get_possible_moves b color) limit) eqn:Ht;
    try (rewrite minimax_max_node_terminal, minimax_min_node_terminal by exact Ht;
         repeat split; intros;
         rewrite ?alphabeta_max_node_terminal, ?alphabeta_min_node_terminal
           by exact Ht;
         eexists _, _, _; (split; [reflexivity | by left])).
  - destruct (enough_S _ _ _ _ Ht He) as (? & [=]).
  - assert (Hkid : forall m, m ∈ get_possible_moves b color ->
              enough valid measure fuel
                (play_move b color (fst m) (snd m)) (limit - 1)).
    { intros m Hm.
      destruct (enough_child _ _ _ _ m Ht Hm He) as (f' & [= <-] & H). exact H. }
    rewrite minimax_max_node_step, minimax_min_node_step by exact Ht.
    repeat split; intros;
      rewrite ?alphabeta_max_node_step, ?alphabeta_min_node_step by exact Ht;
      unfold ordering_block; simpl.
    + destruct (minimax_max_loop_total
                  (fun nb c => minimax_min_node fuel nb (opponent_of color)
                                 (limit - 1) caching c)
                  b color (get_possible_moves b color)) with
        (value := NegInf) (best := @None pymove) (cached := cached)
        as (bm & v & c' & -> & Hbm).
      { intros m c Hm.
        destruct (IH _ (opponent_of color) _ caching c (Hkid m Hm))
          as (_ & (bm & v & c' & -> & _) & _). by eexists _, _. }
      eexists _, _, _. split; [reflexivity |].
      destruct Hbm as [->|Hbm]; [by left | by right].
    + destruct (minimax_min_loop_total
                  (fun nb c => minimax_max_node fuel nb (opponent_of color)
                                 (limit - 1) caching c)
                  b color (get_possible_moves b color)) with
        (value := PosInf) (best := @None pymove) (cached := cached)
        as (bm & v & c' & -> & Hbm).
      { intros m c Hm.
        destruct (IH _ (opponent_of color) _ caching c (Hkid m Hm))
          as ((bm & v & c' & -> & _) & _). by eexists _, _. }
      eexists _, _, _. split; [reflexivity |].
      destruct Hbm as [->|Hbm]; [by left | by right].
    + destruct (alphabeta_max_loop_total
                  (fun nb a b' c =>
                     alphabeta_min_node fuel nb (opponent_of color) a b'
                       (limit - 1) caching 0 c)
                  b color (get_possible_moves b color)) with
        (alpha := alpha) (beta := beta)
        (value := NegInf) (best := @None pymove) (cached := cached)
        as (bm & v & c' & -> & Hbm).
      { intros m a b' c Hm.
        destruct (IH _ (opponent_of color) _ caching c (Hkid m Hm))
          as (_ & _ & _ & H).
        destruct (H a b') as (bm & v & c' & -> & _). by eexists _, _. }
      eexists _, _, _. split; [reflexivity |].
      destruct Hbm as [->|Hbm]; [by left | by right].
    + destruct (alphabeta_min_loop_total
                  (fun nb a b' c =>
                     alphabeta_max_node fuel nb (opponent_of color) a b'
                       (limit - 1) caching 0 c)
                  b color (get_possible_moves b color)) with
        (alpha := alpha) (beta := beta)
        (value := PosInf) (best := @None pymove) (cached := cached)
        as (bm & v & c' & -> & Hbm).
      { intros m a b' c Hm.
        destruct (IH _ (opponent_of color) _ caching c (Hkid m Hm))
          as (_ & _ & H & _).
        destruct (H a b') as (bm & v & c' & -> & _). by eexists _, _. }
      eexists _, _, _. split; [reflexivity |].
      destruct Hbm as [->|Hbm]; [by left | by right].
Qed.

End Fuel.

End Totality.

Section TieBreak.
Context {rules : OthelloShared}.

Lemma minimax_max_loop_first child b color ms :
  forall value best (cached : cache) bm v c',
    minimax_max_loop child b color (map MoveTuple ms) value best cached
    = Ret ((bm, v), c') ->
    exists vals,
      child_values child b color ms cached = Ret (vals, c')
      /\ (forall x, x ∈ vals -> ext_ltb v x = false)
      /\ ext_ltb v value = false
      /\ ((bm = best /\ v = value)
          \/ exists k m,
              ms !! k = Some m /\ vals !! k = Some v
              /\ bm = Some (MoveTuple m)
              /\ ext_ltb value v = true
              /\ forall k' x, (k' < k)%nat -> vals !! k' = Some x ->
                             ext_ltb x v = true).
Proof.
  induction ms as [|m ms IH]; intros value best cached bm v c'; simpl.
  - intros [= <- <- <-]. exists []. repeat split.
    + intros x Hx. by apply elem_of_nil in Hx.
    + apply ext_ltb_irrefl.
    + by left.
  - destruct (cached_or child _ cached) as [[[nm nv] c1]| |]; simpl;
      try discriminate.
    destruct (ext_ltb value nv) eqn:Hlt; intros Hloop;
      destruct (IH _ _ _ _ _ _ Hloop) as (vals & -> & Hall & Hge & Hsel);
      exists (nv :: vals); simpl; (split; [reflexivity |]).
    + repeat split.
      * intros x [->|Hx]%elem_of_cons; [exact Hge | by apply Hall].
      * clear Hsel Hall IH Hloop. ext_cases.
      * right. destruct Hsel as [[-> ->]|(k & m' & Hk & Hv & -> & Hnv & Hearly)].
        -- exists 0%nat, m. repeat split; try done. intros k' x Hk'. lia.
        -- exists (S k), m'. repeat split; try done.
           ++ eapply ext_ltb_trans; eauto.
           ++ intros [|k'] x Hk'; simpl.
              ** by intros [= <-].
              ** apply Hearly. lia.
    + repeat split.
      * intros x [->|Hx]%elem_of_cons; [| by apply Hall].
        clear Hsel Hall IH Hloop. ext_cases.
      * exact Hge.
      * destruct Hsel as [[-> ->]|(k & m' & Hk & Hv & -> & Hnv & Hearly)];
          [by left | right].
        exists (S k), m'. repeat split; try done.
        intros [|k'] x Hk'; simpl.
        -- intros [= <-]. clear Hearly Hall IH Hloop Hk Hv. ext_cases.
        -- apply Hearly. lia.
Qed.


End TieBreak.

(** ** What the search returns *)

Section Search.
Context {rules : OthelloShared}.
Variables (valid : board -> Prop) (measure : board -> nat).
Hypothesis fills : cell_filling valid measure.



(** C10: whatever the cache holds, [select_move_minimax], and
    [select_move_alphabeta] with ordering disabled, return the pass sentinel
    [None] or an element of [get_possible_moves board color]. *)
Theorem select_move_returns_legal_move fuel b color limit caching
    (cached : cache) :
  enough valid measure fuel b limit ->
  (exists bm c',
      select_move_minimax fuel b color limit caching cached = Ret (bm, c')
      /\ (bm = None
          \/ exists m, bm = Some (MoveTuple m)
                       /\ m ∈ get_possible_moves b color))
  /\ (exists bm c',
      select_move_alphabeta fuel b color limit caching 0 cached = Ret (bm, c')
      /\ (bm = None
          \/ exists m, bm = Some (MoveTuple m)
                       /\ m ∈ get_possible_moves b color)).
Proof.
  intros He.
  destruct (nodes_total valid measure fills fuel b color limit caching
              cached He)
    as ((bm & v & c' & Hmax & Hl) & _ & Hab & _).
  destruct (Hab NegInf PosInf) as (bm' & v' & c'' & Hmax' & Hl').
  unfold select_move_minimax, select_move_alphabeta.
  rewrite Hmax, Hmax'. simpl. split; by eexists _, _.
Qed.

End Search.

(** The board game is cell-filling on square boards. *)
Lemma othello_cell_filling :
  cell_filling (fun b : board => Othello.square b = true) Othello.empties.
Proof.
  intros b color i j Hsq Hin. by apply OthelloFacts.play_move_fills.
Qed.



Lemma select_move_returns_legal_move_opening :
  enough (fun b : board => Othello.square b = true) Othello.empties
    3 Othello.start4 3
  /\ exists bm c',
      select_move_minimax 3 Othello.start4 1 3 1 ∅ = Ret (bm, c')
      /\ (bm = None
          \/ exists m, bm = Some (MoveTuple m)
                       /\ m ∈ get_possible_moves Othello.start4 1).
Proof.
  assert (He : enough (fun b : board => Othello.square b = true) Othello.empties
                 3 Othello.start4 3) by (left; lia).
  split; [exact He |].
  exact (proj1 (select_move_returns_legal_move _ _ othello_cell_filling
                  3 Othello.start4 1 3 1 ∅ He)).
Defined.

(** ** Parameters the search does not look at *)

Section Extensionality.
Context {rules : OthelloShared}.

Lemma cached_or_ext child child' nb (cached : cache) :
  (forall c, child nb c = child' nb c) ->
  cached_or child nb cached = cached_or child' nb cached.
Proof.
  intros H. unfold cached_or. destruct (cached !! nb); [reflexivity |].
  by rewrite H.
Qed.

Lemma minimax_max_loop_ext child child' b color moves :
  (forall nb c, child nb c = child' nb c) ->
  forall value best (cached : cache),
    minimax_max_loop child b color moves value best cached
    = minimax_max_loop child' b color moves value best cached.
Proof.
  intros H. induction moves as [|mv moves IH]; intros value best cached;
    simpl; [reflexivity |].
  destruct (play_move_py b color (index0 mv) (index1 mv)) as [nb| |]; simpl;
    try reflexivity.
  rewrite (cached_or_ext child child') by (intros; apply H).
  destruct (cached_or child' nb cached) as [[[nm nv] c1]| |]; simpl;
    try reflexivity.
  destruct (ext_ltb value nv); apply IH.
Qed.

Lemma minimax_min_loop_ext child child' b color moves :
  (forall nb c, child nb c = child' nb c) ->
  forall value best (cached : cache),
    minimax_min_loop child b color moves value best cached
    = minimax_min_loop child' b color moves value best cached.
Proof.
  intros H. induction moves as [|mv moves IH]; intros value best cached;
    simpl; [reflexivity |].
  destruct (play_move_py b color (index0 mv) (index1 mv)) as [nb| |]; simpl;
    try reflexivity.
  rewrite (cached_or_ext child child') by (intros; apply H).
  destruct (cached_or child' nb cached) as [[[nm nv] c1]| |]; simpl;
    try reflexivity.
  destruct (ext_ltb nv value); apply IH.
Qed.

Lemma alphabeta_max_loop_ext child child' b color moves :
  (forall nb a b' c, child nb a b' c = child' nb a b' c) ->
  forall alpha beta value best (cached : cache),
    alphabeta_max_loop child b color moves alpha beta value best cached
    = alphabeta_max_loop child' b color moves alpha beta value best cached.
Proof.
  intros H. induction moves as [|mv moves IH];
    intros alpha beta value best cached; simpl; [reflexivity |].
  destruct (play_move_py b color (index0 mv) (index1 mv)) as [nb| |]; simpl;
    try reflexivity.
  rewrite (cached_or_ext (fun nb c => child nb alpha beta c)
             (fun nb c => child' nb alpha beta c)) by (intros; apply H).
  destruct (cached_or _ nb cached) as [[[nm nv] c1]| |]; simpl;
    try reflexivity.
  destruct (ext_ltb value nv);
    match goal with |- context [ext_leb ?x ?y] => destruct (ext_leb x y) end;
    try reflexivity; apply IH.
Qed.

Lemma alphabeta_min_loop_ext child child' b color moves :
  (forall nb a b' c, child nb a b' c = child' nb a b' c) ->
  forall alpha beta value best (cached : cache),
    alphabeta_min_loop child b color moves alpha beta value best cached
    = alphabeta_min_loop child' b color moves alpha beta value best cached.
Proof.
  intros H. induction moves as [|mv moves IH];
    intros alpha beta value best cached; simpl; [reflexivity |].
  destruct (play_move_py b color (index0 mv) (index1 mv)) as [nb| |]; simpl;
    try reflexivity.
  rewrite (cached_or_ext (fun nb c => child nb alpha beta c)
             (fun nb c => child' nb alpha beta c)) by (intros; apply H).
  destruct (cached_or _ nb cached) as [[[nm nv] c1]| |]; simpl;
    try reflexivity.
  destruct (ext_ltb nv value);
    match goal with |- context [ext_leb ?x ?y] => destruct (ext_leb x y) end;
    try reflexivity; apply IH.
Qed.

Lemma terminal_negative moves limit limit' :
  limit < 0 -> limit' < 0 -> terminal moves limit = terminal moves limit'.
Proof.
  intros H H'. destruct moves; simpl; [reflexivity |].
  destruct (Z.eqb_spec limit 0), (Z.eqb_spec limit' 0); lia || reflexivity.
Qed.

(** No node tells one negative depth limit from another, and none reads
    [caching]. *)
Lemma nodes_negative_limit fuel :
  forall b color limit limit' caching caching' ordering (cached : cache),
    limit < 0 -> limit' < 0 ->
    minimax_max_node fuel b color limit caching cached
    = minimax_max_node fuel b color limit' caching' cached
    /\ minimax_min_node fuel b color limit caching cached
      = minimax_min_node fuel b color limit' caching' cached
    /\ (forall alpha beta,
         alphabeta_max_node fuel b color alpha beta limit caching ordering cached
         = alphabeta_max_node fuel b color alpha beta limit' caching' ordering
             cached)
    /\ (forall alpha beta,
         alphabeta_min_node fuel b color alpha beta limit caching ordering cached
         = alphabeta_min_node fuel b color alpha beta limit' caching' ordering
             cached).
Proof.
  induction fuel as [|fuel IH];
    intros b color limit limit' caching caching' ordering cached Hl Hl';
    simpl; rewrite (terminal_negative _ limit limit' Hl Hl');
    destruct (terminal (get_possible_moves b color) limit');
    repeat split; try reflexivity; intros.
  - apply minimax_max_loop_ext. intros nb c.
    apply (IH nb _ (limit - 1) (limit' - 1) caching caching' ordering c); lia.
  - apply minimax_min_loop_ext. intros nb c.
    apply (IH nb _ (limit - 1) (limit' - 1) caching caching' ordering c); lia.
  - apply alphabeta_max_loop_ext. intros nb a b' c.
    apply (IH nb _ (limit - 1) (limit' - 1) caching caching' ordering c); lia.
  - apply alphabeta_min_loop_ext. intros nb a b' c.
    apply (IH nb _ (limit - 1) (limit' - 1) caching caching' ordering c); lia.
Qed.

(** The four nodes never read [caching]. *)
Lemma nodes_ignore_caching fuel :
  forall b color limit caching caching' ordering (cached : cache),
    minimax_max_node fuel b color limit caching cached
    = minimax_max_node fuel b color limit caching' cached
    /\ minimax_min_node fuel b color limit caching cached
      = minimax_min_node fuel b color limit caching' cached
    /\ (forall alpha beta,
         alphabeta_max_node fuel b color alpha beta limit caching ordering cached
         = alphabeta_max_node fuel b color alpha beta limit caching' ordering
             cached)
    /\ (forall alpha beta,
         alphabeta_min_node fuel b color alpha beta limit caching ordering cached
         = alphabeta_min_node fuel b color alpha beta limit caching' ordering
             cached).
Proof.
  induction fuel as [|fuel IH];
    intros b color limit caching caching' ordering cached;
    simpl; destruct (terminal (get_possible_moves b color) limit);
    repeat split; try reflexivity; intros.
  - apply minimax_max_loop_ext. intros nb c.
    apply (IH nb _ (limit - 1) caching caching' ordering c).
  - apply minimax_min_loop_ext. intros nb c.
    apply (IH nb _ (limit - 1) caching caching' ordering c).
  - apply alphabeta_max_loop_ext. intros nb a b' c.
    apply (IH nb _ (limit - 1) caching caching' ordering c).
  - apply alphabeta_min_loop_ext. intros nb a b' c.
    apply (IH nb _ (limit - 1) caching caching' ordering c).
Qed.

(** C9 as the code has it: a negative depth limit is not rejected; the
    engines run with it and, the limit never reaching [0], do exactly what
    they do with the unlimited sentinel [-1]. *)
Theorem negative_limit_runs_unlimited fuel color limit minimax caching ordering
    b (cached : cache) :
  limit < 0 ->
  run_ai_select fuel color limit minimax caching ordering b cached
  = run_ai_select fuel color (-1) minimax caching ordering b cached.
Proof.
  intros Hl. unfold run_ai_select, select_move_minimax, select_move_alphabeta.
  destruct (nodes_negative_limit fuel b color limit (-1) caching caching
              ordering cached Hl) as (-> & _ & Hab & _); [lia |].
  rewrite Hab. reflexivity.
Qed.

End Extensionality.

(** C9 as stated fails: with [limit = -2] nothing is rejected, the minimax
    engine runs and answers with a move. *)
Lemma negative_limit_not_rejected :
  answer (run_ai_select 5 2 (-2) 1 0 0 Othello.late4 ∅)
  = Ret (Some (MoveTuple (1, 0))).
Proof. vm_compute. reflexivity. Qed.

Lemma negative_limit_runs_unlimited_late :
  -2 < 0
  /\ run_ai_select 5 2 (-2) 1 0 0 Othello.late4 ∅
     = run_ai_select 5 2 (-1) 1 0 0 Othello.late4 ∅.
Proof.
  split; [lia |].
  apply (negative_limit_runs_unlimited (rules := othello_rules)
           5 2 (-2) 1 0 0 Othello.late4 ∅).
  lia.
Defined.

(** ** Where the code departs from its description *)

Section Ordering.
Context {rules : OthelloShared}.

Lemma insert_desc_cons x l : exists y l', insert_desc x l = y :: l'.
Proof. destruct l as [|y l]; simpl; [| destruct (snd x <? snd y)]; eauto. Qed.

Lemma sorted_desc_cons x l : exists y l', sorted_desc (x :: l) = y :: l'.
Proof. unfold sorted_desc. simpl. apply insert_desc_cons. Qed.

Lemma ordering_block_scored b color ordering m moves :
  ordering <> 0 ->
  exists m' u rest,
    ordering_block b color ordering (m :: moves) = ScoredEntry m' u :: rest.
Proof.
  intros H%Z.eqb_neq. unfold ordering_block. rewrite H.
  destruct (sorted_desc _) as [|y l'] eqn:E; cbn [map]; [| eauto].
  destruct (sorted_desc_cons
              (m, compute_utility (play_move b color (fst m) (snd m)) color)
              (map (fun mv => (mv, compute_utility
                                     (play_move b color (fst mv) (snd mv))
                                     color)) moves))
    as (y & l' & E').
  discriminate (eq_trans (eq_sym E) E').
Qed.

(** With [ordering] on, a node that is not terminal hands its first sorted
    entry [[(i, j), utility]] to [play_move] as column [(i, j)] and row
    [utility], and the call raises. *)
Lemma ordering_on_raises fuel b color alpha beta limit caching ordering
    (cached : cache) :
  ordering <> 0 ->
  terminal (get_possible_moves b color) limit = false ->
  alphabeta_max_node (S fuel) b color alpha beta limit caching ordering cached
  = TypeError
  /\ alphabeta_min_node (S fuel) b color alpha beta limit caching ordering cached
    = TypeError.
Proof.
  intros Ho Ht.
  rewrite alphabeta_max_node_step, alphabeta_min_node_step by exact Ht.
  destruct (terminal_false _ _ Ht) as [Hne _].
  destruct (get_possible_moves b color) as [|m moves]; [done |].
  destruct (ordering_block_scored b color ordering m moves Ho)
    as (m' & u & rest & ->).
  split; reflexivity.
Qed.

End Ordering.

(** C2, at a failing input: with [caching = 0] on an empty cache, a search
    of depth 1 leaves its child values in the cache
    ([cached_after_depth1]), and a following search of depth 2, again with
    [caching = 0], takes them from there instead of recursing: it answers
    [(0, 0)] with value [2] and leaves the cache as it found it, where a
    search of depth 2 on an empty cache answers [(1, 0)] with value [-3]. *)
Theorem caching_off_still_caches :
  select_move_minimax 1 Othello.late4 2 1 0 ∅
  = Ret (Some (MoveTuple (0, 0)), cached_after_depth1)
  /\ cached_after_depth1 !! (Othello.play_move Othello.late4 2 0 0)
    = Some (None, Fin 2)
  /\ minimax_max_node 2 Othello.late4 2 2 0 cached_after_depth1
    = Ret ((Some (MoveTuple (0, 0)), Fin 2), cached_after_depth1)
  /\ alphabeta_max_node 2 Othello.late4 2 NegInf PosInf 2 0 0
      cached_after_depth1
    = Ret ((Some (MoveTuple (0, 0)), Fin 2), cached_after_depth1)
  /\ answer (minimax_max_node 2 Othello.late4 2 2 0 ∅)
    = Ret (Some (MoveTuple (1, 0)), Fin (-3))
  /\ answer (alphabeta_max_node 2 Othello.late4 2 NegInf PosInf 2 0 0 ∅)
    = Ret (Some (MoveTuple (1, 0)), Fin (-3)).
Proof. repeat split; vm_compute; reflexivity. Qed.

(** C3, at a failing input: on the opening position with depth limit 1,
    [select_move_alphabeta] with [ordering = 1] raises [TypeError], where
    with [ordering = 0] it answers [(0, 1)]. *)
Theorem ordering_on_raises_opening :
  select_move_alphabeta 1 Othello.start4 1 1 0 1 ∅ = TypeError
  /\ answer (select_move_alphabeta 1 Othello.start4 1 1 0 0 ∅)
    = Ret (Some (MoveTuple (0, 1))).
Proof. split; vm_compute; reflexivity. Qed.

(** C8, at a failing input: where [color] has a legal move,
    [compute_heuristic] returns the bare move, no pair and no value; only
    without legal moves does it return the pair. *)
Theorem compute_heuristic_returns_bare_move :
  compute_heuristic Othello.late4 2 = HeuristicMove (Some (1, 0))
  /\ compute_heuristic Othello.start4 1 = HeuristicMove None
  /\ compute_heuristic Othello.full4 1
     = HeuristicPair None (compute_utility Othello.full4 1).
Proof. repeat split; vm_compute; reflexivity. Qed.

Section Heuristic.
Context {rules : OthelloShared}.

(** [compute_heuristic] returns a pair exactly when there is no legal
    move. *)
Lemma compute_heuristic_shape b color :
  (get_possible_moves b color = [] ->
   compute_heuristic b color = HeuristicPair None (compute_utility b color))
  /\ (get_possible_moves b color <> [] ->
     exists best_move, compute_heuristic b color = HeuristicMove best_move).
Proof.
  unfold compute_heuristic.
  destruct (get_possible_moves b color); split; try done.
  intros _. by eexists.
Qed.

End Heuristic.

(** ** Alpha-beta against minimax *)

Lemma max_loops_agree_step alpha0 beta alpha vm va bm ba c r (mv : pymove) :
  max_loops_agree alpha0 beta alpha vm va bm ba ->
  within alpha beta c r ->
  (ext_leb beta (if ext_ltb va r then r else va) = true
   /\ ext_ltb c beta = false)
  \/ (ext_leb beta (if ext_ltb va r then r else va) = false
      /\ max_loops_agree alpha0 beta
           (ext_max alpha (if ext_ltb va r then r else va))
           (if ext_ltb vm c then c else vm)
           (if ext_ltb va r then r else va)
           (if ext_ltb vm c then Some mv else bm)
           (if ext_ltb va r then Some mv else ba)).
Proof.
  unfold max_loops_agree, within, ext_max, ext_leb.
  intros (H1 & H2 & H3 & H4 & H5 & H6) (W1 & W2 & W3).
  destruct (ext_ltb alpha c) eqn:Eac.
  - destruct (ext_ltb c beta) eqn:Ecb.
    + rewrite (W3 eq_refl eq_refl) in *. clear W1 W2 W3 H6.
      assert (Hvm : ext_ltb vm c = true) by ext_auto.
      assert (Hva : ext_ltb va c = true) by ext_auto.
      rewrite Hvm, Hva, Eac, Ecb.
      right. split; [done |].
      split; [done |]. split; [done |].
      split; [apply ext_ltb_irrefl |]. split; [apply ext_ltb_irrefl |].
      split; [ext_auto | done].
    + left. specialize (W2 eq_refl). clear W1 W3 H6.
      assert (Hva : ext_ltb va r = true) by ext_auto.
      rewrite Hva, W2. done.
  - right. specialize (W1 eq_refl). clear W2 W3.
    assert (Hva : ext_ltb alpha (if ext_ltb va r then r else va) = false)
      by (destruct (ext_ltb va r); assumption).
    assert (Hb : ext_ltb (if ext_ltb va r then r else va) beta = true)
      by ext_auto.
    rewrite Hva, Hb.
    split; [done |]. split; [done |]. split; [done |]. split; [done |].
    split; [destruct (ext_ltb vm c); assumption |]. split; [done |].
    intros Hlt. destruct (H6 Hlt) as (-> & -> & ->).
    rewrite Eac, W1. done.
Qed.

Lemma max_loops_agree_done alpha0 beta alpha vm va bm ba :
  max_loops_agree alpha0 beta alpha vm va bm ba ->
  within alpha0 beta vm va
  /\ (ext_ltb alpha0 vm = true -> ext_ltb vm beta = true -> ba = bm).
Proof.
  unfold max_loops_agree, within.
  intros (H1 & H2 & H3 & H4 & H5 & H6).
  assert (Hin : ext_ltb alpha0 vm = true -> va = vm /\ ba = bm).
  { intros Hlt. destruct H6 as (-> & -> & ->); [ext_auto | done]. }
  repeat split.
  - intros Hle. destruct (ext_ltb alpha0 alpha) eqn:E.
    + destruct (H6 eq_refl) as (-> & _). congruence.
    + by rewrite (ext_le_antisym _ _ E H5).
  - intros Hge. assert (ext_ltb vm beta = true) by ext_auto. congruence.
  - intros Hlt _. by apply Hin.
  - intros Hlt _. by apply Hin.
Qed.

Lemma max_cutoff_done alpha0 beta vm c av v :
  ext_ltb alpha0 beta = true ->
  ext_leb beta av = true ->
  ext_ltb c beta = false ->
  ext_ltb v (if ext_ltb vm c then c else vm) = false ->
  within alpha0 beta v av
  /\ (ext_ltb alpha0 v = true -> ext_ltb v beta = true -> False).
Proof.
  unfold within, ext_leb. intros H1 Hcut%negb_true_iff Hc Hv.
  assert (Hvb : ext_ltb v beta = false).
  { destruct (ext_ltb vm c) eqn:E; [ext_auto |].
    eapply ext_le_trans; [| exact Hv]. ext_auto. }
  repeat split; try congruence.
  intros Hle. assert (ext_ltb alpha0 v = true) by ext_auto. congruence.
Qed.

Lemma min_loops_agree_step alpha beta0 beta vm va bm ba c r (mv : pymove) :
  min_loops_agree alpha beta0 beta vm va bm ba ->
  within alpha beta c r ->
  (ext_leb (if ext_ltb r va then r else va) alpha = true
   /\ ext_ltb alpha c = false)
  \/ (ext_leb (if ext_ltb r va then r else va) alpha = false
      /\ min_loops_agree alpha beta0
           (ext_min beta (if ext_ltb r va then r else va))
           (if ext_ltb c vm then c else vm)
           (if ext_ltb r va then r else va)
           (if ext_ltb c vm then Some mv else bm)
           (if ext_ltb r va then Some mv else ba)).
Proof.
  unfold min_loops_agree, within, ext_min, ext_leb.
  intros (H1 & H2 & H3 & H4 & H5 & H6) (W1 & W2 & W3).
  destruct (ext_ltb c beta) eqn:Ecb.
  - destruct (ext_ltb alpha c) eqn:Eac.
    + rewrite (W3 eq_refl eq_refl) in *. clear W1 W2 W3 H6.
      assert (Hvm : ext_ltb c vm = true) by ext_auto.
      assert (Hva : ext_ltb c va = true) by ext_auto.
      rewrite Hvm, Hva, Eac, Ecb.
      right. split; [done |].
      split; [done |]. split; [done |].
      split; [apply ext_ltb_irrefl |]. split; [apply ext_ltb_irrefl |].
      split; [ext_auto | done].
    + left. specialize (W1 eq_refl). clear W2 W3 H6.
      assert (Hva : ext_ltb r va = true) by ext_auto.
      rewrite Hva, W1. done.
  - right. specialize (W2 eq_refl). clear W1 W3.
    assert (Hva : ext_ltb (if ext_ltb r va then r else va) beta = false)
      by (destruct (ext_ltb r va); assumption).
    assert (Hb : ext_ltb alpha (if ext_ltb r va then r else va) = true)
      by ext_auto.
    rewrite Hva, Hb.
    split; [done |]. split; [done |]. split; [done |]. split; [done |].
    split; [destruct (ext_ltb c vm); assumption |]. split; [done |].
    intros Hlt. destruct (H6 Hlt) as (-> & -> & ->).
    rewrite Ecb, W2. done.
Qed.

Lemma min_loops_agree_done alpha beta0 beta vm va bm ba :
  min_loops_agree alpha beta0 beta vm va bm ba ->
  within alpha beta0 vm va
  /\ (ext_ltb alpha vm = true -> ext_ltb vm beta0 = true -> ba = bm).
Proof.
  unfold min_loops_agree, within.
  intros (H1 & H2 & H3 & H4 & H5 & H6).
  assert (Hin : ext_ltb vm beta0 = true -> va = vm /\ ba = bm).
  { intros Hlt. destruct H6 as (-> & -> & ->); [ext_auto | done]. }
  repeat split.
  - intros Hle. assert (ext_ltb alpha vm = true) by ext_auto. congruence.
  - intros Hge. destruct (ext_ltb beta beta0) eqn:E.
    + destruct (H6 eq_refl) as (-> & _). congruence.
    + by rewrite <- (ext_le_antisym _ _ E H5).
  - intros _ Hlt. by apply Hin.
  - intros _ Hlt. by apply Hin.
Qed.

Lemma min_cutoff_done alpha beta0 vm c av v :
  ext_ltb alpha beta0 = true ->
  ext_leb av alpha = true ->
  ext_ltb alpha c = false ->
  ext_ltb (if ext_ltb c vm then c else vm) v = false ->
  within alpha beta0 v av
  /\ (ext_ltb alpha v = true -> ext_ltb v beta0 = true -> False).
Proof.
  unfold within, ext_leb. intros H1 Hcut%negb_true_iff Hc Hv.
  assert (Hvb : ext_ltb alpha v = false).
  { destruct (ext_ltb c vm) eqn:E; [ext_auto |].
    eapply ext_le_trans; [exact Hv |]. ext_auto. }
  repeat split; try congruence.
  intros Hle. assert (ext_ltb v beta0 = true) by ext_auto. congruence.
Qed.

Section NoHits.
Context {rules : OthelloShared}.

Lemma cached_or_miss child nb (cached : cache) :
  cached !! nb = None ->
  cached_or child nb cached
  = (do '(r, cached') <- child nb cached; Ret (r, <[nb := r]> cached')).
Proof. intros H. unfold cached_or. by rewrite H. Qed.

Lemma unseen_app (cached : cache) l k :
  unseen cached (l ++ k) -> unseen cached l /\ unseen cached k.
Proof.
  intros H. split; intros x Hx; apply H, elem_of_app; [by left | by right].
Qed.

Lemma unseen_after_child (cached cached1 : cache) nb r sub rest :
  NoDup ((nb :: sub) ++ rest) ->
  unseen cached ((nb :: sub) ++ rest) ->
  grows_within sub cached cached1 ->
  unseen (<[nb := r]> cached1) rest.
Proof.
  intros (_ & Hdisj & _)%NoDup_app Hun Hgrow x Hx.
  assert (Hnb : nb <> x).
  { intros ->. apply (Hdisj x); [left | done]. }
  rewrite lookup_insert_ne by done.
  apply Hgrow.
  - intros Hsub. apply (Hdisj x); [by right | done].
  - apply Hun, elem_of_app. by right.
Qed.

Lemma grows_within_child (cached cached1 cached' : cache) nb r sub rest :
  grows_within sub cached cached1 ->
  grows_within rest (<[nb := r]> cached1) cached' ->
  grows_within ((nb :: sub) ++ rest) cached cached'.
Proof.
  intros H1 H2 x Hx Hnone.
  apply H2.
  - intros Hr. apply Hx, elem_of_app. by right.
  - rewrite lookup_insert_ne.
    + apply H1; [| done]. intros Hs. apply Hx, elem_of_app. left. by right.
    + intros ->. apply Hx, elem_of_app. left. left.
Qed.

Lemma grows_within_last (cached cached1 : cache) nb r sub rest :
  grows_within sub cached cached1 ->
  grows_within ((nb :: sub) ++ rest) cached (<[nb := r]> cached1).
Proof.
  intros H1 x Hx Hnone.
  rewrite lookup_insert_ne.
  - apply H1; [| done]. intros Hs. apply Hx, elem_of_app. left. by right.
  - intros ->. apply Hx, elem_of_app. left. left.
Qed.

Lemma grows_within_refl boards (cached : cache) :
  grows_within boards cached cached.
Proof. by intros x _ H. Qed.

Lemma kids_cons sub b color m ms :
  kids sub b color (m :: ms)
  = (play_move b color (fst m) (snd m)
       :: sub (play_move b color (fst m) (snd m)))
    ++ kids sub b color ms.
Proof. reflexivity. Qed.

Lemma minimax_max_loop_fresh sub child b color ms :
  minimax_fresh sub child ->
  forall value best (cached : cache) bm v cached',
    NoDup (kids sub b color ms) -> unseen cached (kids sub b color ms) ->
    value <> PosInf ->
    minimax_max_loop child b color (map MoveTuple ms) value best cached
    = Ret ((bm, v), cached') ->
    grows_within (kids sub b color ms) cached cached'
    /\ ext_ltb v value = false
    /\ ((ms <> [] \/ exists z, value = Fin z) -> exists z, v = Fin z).
Proof.
  intros Hchild.
  induction ms as [|m ms IH]; intros value best cached bm v cached' Hnd Hun Hv.
  - simpl. intros [= <- <- <-]. split; [apply grows_within_refl |].
    split; [apply ext_ltb_irrefl |]. intros [?|?]; done.
  - remember (kids sub b color (m :: ms)) as K eqn:HK.
    rewrite kids_cons in HK. simpl.
    set (nb := play_move b color (fst m) (snd m)) in *. subst K.
    rewrite cached_or_miss by (apply Hun; left).
    destruct (child nb cached) as [[[nm nv] c1]| |] eqn:Ec; simpl;
      try discriminate.
    destruct (Hchild nb cached (nm, nv) c1) as [[z Hz] Hg]; try done.
    { apply NoDup_app in Hnd as (Hnd & _). by apply NoDup_cons in Hnd as [_ ?]. }
    { intros x Hx. apply Hun, elem_of_app. left. by right. }
    simpl in Hz. subst nv.
    assert (Hnd' : NoDup (kids sub b color ms))
      by (by apply NoDup_app in Hnd as (_ & _ & ?)).
    assert (Hun' : unseen (<[nb := (nm, Fin z)]> c1) (kids sub b color ms))
      by (eapply unseen_after_child; eauto).
    destruct (ext_ltb value (Fin z)) eqn:Hlt; intros Hloop.
    + destruct (IH (Fin z) _ _ _ _ _ Hnd' Hun' ltac:(done) Hloop) as (Hg' & Hge & Hfin).
      split; [eapply grows_within_child; eauto |].
      split; [ext_auto |]. intros _. apply Hfin. right. by eexists.
    + destruct (IH _ _ _ _ _ _ Hnd' Hun' Hv Hloop) as (Hg' & Hge & Hfin).
      split; [eapply grows_within_child; eauto |].
      split; [done |]. intros _. apply Hfin. right.
      destruct value as [|z'|]; [discriminate | by eexists | done].
Qed.

Lemma minimax_min_loop_fresh sub child b color ms :
  minimax_fresh sub child ->
  forall value best (cached : cache) bm v cached',
    NoDup (kids sub b color ms) -> unseen cached (kids sub b color ms) ->
    value <> NegInf ->
    minimax_min_loop child b color (map MoveTuple ms) value best cached
    = Ret ((bm, v), cached') ->
    grows_within (kids sub b color ms) cached cached'
    /\ ext_ltb value v = false
    /\ ((ms <> [] \/ exists z, value = Fin z) -> exists z, v = Fin z).
Proof.
  intros Hchild.
  induction ms as [|m ms IH]; intros value best cached bm v cached' Hnd Hun Hv.
  - simpl. intros [= <- <- <-]. split; [apply grows_within_refl |].
    split; [apply ext_ltb_irrefl |]. intros [?|?]; done.
  - remember (kids sub b color (m :: ms)) as K eqn:HK.
    rewrite kids_cons in HK. simpl.
    set (nb := play_move b color (fst m) (snd m)) in *. subst K.
    rewrite cached_or_miss by (apply Hun; left).
    destruct (child nb cached) as [[[nm nv] c1]| |] eqn:Ec; simpl;
      try discriminate.
    destruct (Hchild nb cached (nm, nv) c1) as [[z Hz] Hg]; try done.
    { apply NoDup_app in Hnd as (Hnd & _). by apply NoDup_cons in Hnd as [_ ?]. }
    { intros x Hx. apply Hun, elem_of_app. left. by right. }
    simpl in Hz. subst nv.
    assert (Hnd' : NoDup (kids sub b color ms))
      by (by apply NoDup_app in Hnd as (_ & _ & ?)).
    assert (Hun' : unseen (<[nb := (nm, Fin z)]> c1) (kids sub b color ms))
      by (eapply unseen_after_child; eauto).
    destruct (ext_ltb (Fin z) value) eqn:Hlt; intros Hloop.
    + destruct (IH (Fin z) _ _ _ _ _ Hnd' Hun' ltac:(done) Hloop)
        as (Hg' & Hge & Hfin).
      split; [eapply grows_within_child; eauto |].
      split; [ext_auto |]. intros _. apply Hfin. right. by eexists.
    + destruct (IH _ _ _ _ _ _ Hnd' Hun' Hv Hloop) as (Hg' & Hge & Hfin).
      split; [eapply grows_within_child; eauto |].
      split; [done |]. intros _. apply Hfin. right.
      destruct value as [|z'|]; [done | by eexists | discriminate].
Qed.

Lemma alphabeta_max_loop_agrees sub childM childA b color ms :
  minimax_fresh sub childM -> alphabeta_agrees sub childM childA ->
  forall vm bm0 (cm : cache) va ba alpha (ca : cache) alpha0 beta bm v cm',
    NoDup (kids sub b color ms) ->
    unseen cm (kids sub b color ms) -> unseen ca (kids sub b color ms) ->
    vm <> PosInf ->
    max_loops_agree alpha0 beta alpha vm va bm0 ba ->
    minimax_max_loop childM b color (map MoveTuple ms) vm bm0 cm
    = Ret ((bm, v), cm') ->
    exists am av ca',
      alphabeta_max_loop childA b color (map MoveTuple ms) alpha beta va ba ca
      = Ret ((am, av), ca')
      /\ grows_within (kids sub b color ms) ca ca'
      /\ within alpha0 beta v av
      /\ (ext_ltb alpha0 v = true -> ext_ltb v beta = true -> am = bm).
Proof.
  intros HM HA.
  induction ms as [|m ms IH];
    intros vm bm0 cm va ba alpha ca alpha0 beta bm v cm' Hnd Hcm Hca Hvm Hinv.
  - simpl. intros [= <- <- <-].
    destruct (max_loops_agree_done _ _ _ _ _ _ _ Hinv) as [Hw Hmv].
    exists ba, va, ca. split; [done |]. split; [apply grows_within_refl |].
    split; [done |]. done.
  - remember (kids sub b color (m :: ms)) as K eqn:HK.
    rewrite kids_cons in HK. simpl.
    set (nb := play_move b color (fst m) (snd m)) in *. subst K.
    rewrite !cached_or_miss by (apply Hcm || apply Hca; left).
    destruct (childM nb cm) as [[[nm c] cm1]| |] eqn:Ec; simpl;
      try discriminate.
    assert (Hsub : NoDup (sub nb)).
    { apply NoDup_app in Hnd as (Hnd & _). by apply NoDup_cons in Hnd as [_ ?]. }
    assert (Hcms : unseen cm (sub nb)).
    { intros x Hx. apply Hcm, elem_of_app. left. by right. }
    assert (Hcas : unseen ca (sub nb)).
    { intros x Hx. apply Hca, elem_of_app. left. by right. }
    destruct (HM nb cm (nm, c) cm1 Hsub Hcms Ec) as [[z Hz] Hgm].
    simpl in Hz. subst c.
    pose proof Hinv as (_ & Hab & _).
    destruct (HA nb cm ca (nm, Fin z) cm1 Hsub Hcms Hcas Ec alpha beta Hab)
      as (am1 & r & ca1 & -> & Hga & Hw & _).
    simpl in Hw. cbn [bind].
    assert (Hnd' : NoDup (kids sub b color ms))
      by (by apply NoDup_app in Hnd as (_ & _ & ?)).
    assert (Hcm' : unseen (<[nb := (nm, Fin z)]> cm1) (kids sub b color ms))
      by (eapply (unseen_after_child cm cm1); eauto).
    assert (Hca' : unseen (<[nb := (am1, r)]> ca1) (kids sub b color ms))
      by (eapply (unseen_after_child ca ca1); eauto).
    pose proof (max_loops_agree_step _ _ _ _ _ _ _ _ _ (MoveTuple m) Hinv Hw)
      as Hstep.
    intros Hloop.
    assert (Hloop' :
      minimax_max_loop childM b color (map MoveTuple ms)
        (if ext_ltb vm (Fin z) then Fin z else vm)
        (if ext_ltb vm (Fin z) then Some (MoveTuple m) else bm0)
        (<[nb := (nm, Fin z)]> cm1) = Ret ((bm, v), cm'))
      by (destruct (ext_ltb vm (Fin z)); exact Hloop).
    clear Hloop.
    assert (Hvm' : (if ext_ltb vm (Fin z) then Fin z else vm) <> PosInf)
      by (destruct (ext_ltb vm (Fin z)); done).
    destruct Hstep as [[Hcut Hc]|[Hcut Hinv']].
    + destruct (minimax_max_loop_fresh sub childM b color ms HM _ _ _ _ _ _
                  Hnd' Hcm' Hvm' Hloop') as (_ & Hge & _).
      destruct Hinv as (H1 & _).
      destruct (max_cutoff_done _ _ _ _ _ _ H1 Hcut Hc Hge) as [Hw' Hno].
      destruct (ext_ltb va r); cbv beta iota; rewrite Hcut;
        (eexists _, _, _; split; [reflexivity |];
         split; [by apply grows_within_last |]; split; [done |];
         intros Ha Hb; destruct (Hno Ha Hb)).
    + destruct (IH _ _ _ _ _ _ _ _ _ _ _ _ Hnd' Hcm' Hca' Hvm' Hinv' Hloop')
        as (am & av & ca' & Hab' & Hg & Hw' & Hmv).
      exists am, av, ca'.
      split; [destruct (ext_ltb va r); cbv beta iota; rewrite Hcut; exact Hab' |].
      split; [eapply grows_within_child; eauto |]. done.
Qed.

Lemma alphabeta_min_loop_agrees sub childM childA b color ms :
  minimax_fresh sub childM -> alphabeta_agrees sub childM childA ->
  forall vm bm0 (cm : cache) va ba beta (ca : cache) alpha beta0 bm v cm',
    NoDup (kids sub b color ms) ->
    unseen cm (kids sub b color ms) -> unseen ca (kids sub b color ms) ->
    vm <> NegInf ->
    min_loops_agree alpha beta0 beta vm va bm0 ba ->
    minimax_min_loop childM b color (map MoveTuple ms) vm bm0 cm
    = Ret ((bm, v), cm') ->
    exists am av ca',
      alphabeta_min_loop childA b color (map MoveTuple ms) alpha beta va ba ca
      = Ret ((am, av), ca')
      /\ grows_within (kids sub b color ms) ca ca'
      /\ within alpha beta0 v av
      /\ (ext_ltb alpha v = true -> ext_ltb v beta0 = true -> am = bm).
Proof.
  intros HM HA.
  induction ms as [|m ms IH];
    intros vm bm0 cm va ba beta ca alpha beta0 bm v cm' Hnd Hcm Hca Hvm Hinv.
  - simpl. intros [= <- <- <-].
    destruct (min_loops_agree_done _ _ _ _ _ _ _ Hinv) as [Hw Hmv].
    exists ba, va, ca. split; [done |]. split; [apply grows_within_refl |].
    split; [done |]. done.
  - remember (kids sub b color (m :: ms)) as K eqn:HK.
    rewrite kids_cons in HK. simpl.
    set (nb := play_move b color (fst m) (snd m)) in *. subst K.
    rewrite !cached_or_miss by (apply Hcm || apply Hca; left).
    destruct (childM nb cm) as [[[nm c] cm1]| |] eqn:Ec; simpl;
      try discriminate.
    assert (Hsub : NoDup (sub nb)).
    { apply NoDup_app in Hnd as (Hnd & _). by apply NoDup_cons in Hnd as [_ ?]. }
    assert (Hcms : unseen cm (sub nb)).
    { intros x Hx. apply Hcm, elem_of_app. left. by right. }
    assert (Hcas : unseen ca (sub nb)).
    { intros x Hx. apply Hca, elem_of_app. left. by right. }
    destruct (HM nb cm (nm, c) cm1 Hsub Hcms Ec) as [[z Hz] Hgm].
    simpl in Hz. subst c.
    pose proof Hinv as (_ & Hab & _).
    destruct (HA nb cm ca (nm, Fin z) cm1 Hsub Hcms Hcas Ec alpha beta Hab)
      as (am1 & r & ca1 & -> & Hga & Hw & _).
    simpl in Hw. cbn [bind].
    assert (Hnd' : NoDup (kids sub b color ms))
      by (by apply NoDup_app in Hnd as (_ & _ & ?)).
    assert (Hcm' : unseen (<[nb := (nm, Fin z)]> cm1) (kids sub b color ms))
      by (eapply (unseen_after_child cm cm1); eauto).
    assert (Hca' : unseen (<[nb := (am1, r)]> ca1) (kids sub b color ms))
      by (eapply (unseen_after_child ca ca1); eauto).
    pose proof (min_loops_agree_step _ _ _ _ _ _ _ _ _ (MoveTuple m) Hinv Hw)
      as Hstep.
    intros Hloop.
    assert (Hloop' :
      minimax_min_loop childM b color (map MoveTuple ms)
        (if ext_ltb (Fin z) vm then Fin z else vm)
        (if ext_ltb (Fin z) vm then Some (MoveTuple m) else bm0)
        (<[nb := (nm, Fin z)]> cm1) = Ret ((bm, v), cm'))
      by (destruct (ext_ltb (Fin z) vm); exact Hloop).
    clear Hloop.
    assert (Hvm' : (if ext_ltb (Fin z) vm then Fin z else vm) <> NegInf)
      by (destruct (ext_ltb (Fin z) vm); done).
    destruct Hstep as [[Hcut Hc]|[Hcut Hinv']].
    + destruct (minimax_min_loop_fresh sub childM b color ms HM _ _ _ _ _ _
                  Hnd' Hcm' Hvm' Hloop') as (_ & Hge & _).
      destruct Hinv as (H1 & _).
      destruct (min_cutoff_done _ _ _ _ _ _ H1 Hcut Hc Hge) as [Hw' Hno].
      destruct (ext_ltb r va); cbv beta iota; rewrite Hcut;
        (eexists _, _, _; split; [reflexivity |];
         split; [by apply grows_within_last |]; split; [done |];
         intros Ha Hb; destruct (Hno Ha Hb)).
    + destruct (IH _ _ _ _ _ _ _ _ _ _ _ _ Hnd' Hcm' Hca' Hvm' Hinv' Hloop')
        as (am & av & ca' & Hab' & Hg & Hw' & Hmv).
      exists am, av, ca'.
      split; [destruct (ext_ltb r va); cbv beta iota; rewrite Hcut; exact Hab' |].
      split; [eapply grows_within_child; eauto |]. done.
Qed.

Lemma subtree_terminal fuel b color limit :
  terminal (get_possible_moves b color) limit = true ->
  subtree fuel b color limit = [].
Proof. intros H. destruct fuel; simpl; rewrite H; reflexivity. Qed.

Lemma subtree_step fuel b color limit :
  terminal (get_possible_moves b color) limit = false ->
  subtree (S fuel) b color limit
  = kids (fun nb => subtree fuel nb (opponent_of color) (limit - 1))
      b color (get_possible_moves b color).
Proof. intros H. simpl. rewrite H. reflexivity. Qed.

Lemma within_refl alpha beta v : within alpha beta v v.
Proof. unfold within. done. Qed.

Lemma ext_ltb_neg_inf a : ext_ltb a NegInf = false.
Proof. by destruct a. Qed.

Lemma max_loops_agree_init alpha beta :
  ext_ltb alpha beta = true ->
  max_loops_agree alpha beta alpha NegInf NegInf None None.
Proof.
  intros H. unfold max_loops_agree.
  rewrite ext_ltb_neg_inf, ext_ltb_irrefl. done.
Qed.

Lemma min_loops_agree_init alpha beta :
  ext_ltb alpha beta = true ->
  min_loops_agree alpha beta beta PosInf PosInf None None.
Proof.
  intros H. unfold min_loops_agree. rewrite ext_ltb_irrefl. done.
Qed.

(** Where no lookup can hit, each minimax node returns a finite value and
    each alpha-beta node, ordering off, stays [within] its window of the
    minimax value of the same board, with the same move when the value is
    inside the window. *)
Lemma nodes_agree fuel :
  forall color limit caching,
    minimax_fresh (fun b => subtree fuel b color limit)
      (fun b c => minimax_max_node fuel b color limit caching c)
    /\ minimax_fresh (fun b => subtree fuel b color limit)
        (fun b c => minimax_min_node fuel b color limit caching c)
    /\ alphabeta_agrees (fun b => subtree fuel b color limit)
        (fun b c => minimax_max_node fuel b color limit caching c)
        (fun b alpha beta c =>
           alphabeta_max_node fuel b color alpha beta limit caching 0 c)
    /\ alphabeta_agrees (fun b => subtree fuel b color limit)
        (fun b c => minimax_min_node fuel b color limit caching c)
        (fun b alpha beta c =>
           alphabeta_min_node fuel b color alpha beta limit caching 0 c).
Proof.
  induction fuel as [|fuel IH]; intros color limit caching.
  - refine (conj _ (conj _ (conj _ _))); intros nb cm;
      destruct (terminal (get_possible_moves nb color) limit) eqn:Ht.
    all: try (intros r cm' _ _;
              rewrite ?minimax_max_node_terminal, ?minimax_min_node_terminal
                by exact Ht;
              intros [= <- <-]; split; [by eexists | apply grows_within_refl]).
    all: try (intros ca r cm' _ _ _;
              rewrite ?minimax_max_node_terminal, ?minimax_min_node_terminal
                by exact Ht;
              intros [= <- <-] alpha beta _;
              rewrite ?alphabeta_max_node_terminal, ?alphabeta_min_node_terminal
                by exact Ht;
              eexists _, _, _; split; [reflexivity |];
              split; [apply grows_within_refl |];
              split; [apply within_refl | done]).
    all: simpl; rewrite Ht; intros; discriminate.
  - destruct (IH (opponent_of color) (limit - 1) caching)
      as (IHmax & IHmin & IHamax & IHamin).
    refine (conj _ (conj _ (conj _ _))); intros nb cm;
      destruct (terminal (get_possible_moves nb color) limit) eqn:Ht.
    all: try (intros r cm' _ _;
              rewrite ?minimax_max_node_terminal, ?minimax_min_node_terminal
                by exact Ht;
              intros [= <- <-]; split; [by eexists | apply grows_within_refl]).
    all: try (intros ca r cm' _ _ _;
              rewrite ?minimax_max_node_terminal, ?minimax_min_node_terminal
                by exact Ht;
              intros [= <- <-] alpha beta _;
              rewrite ?alphabeta_max_node_terminal, ?alphabeta_min_node_terminal
                by exact Ht;
              eexists _, _, _; split; [reflexivity |];
              split; [apply grows_within_refl |];
              split; [apply within_refl | done]).
    all: rewrite (subtree_step _ _ _ _ Ht);
      rewrite ?minimax_max_node_step, ?minimax_min_node_step by exact Ht;
      destruct (terminal_false _ _ Ht) as [Hne _].
    + intros [bm v] cm' Hnd Hun Hloop.
      destruct (minimax_max_loop_fresh _ _ _ _ _ IHmin NegInf None cm bm v cm'
                  Hnd Hun ltac:(done) Hloop) as (Hg & _ & Hfin).
      split; [apply Hfin; by left | done].
    + intros [bm v] cm' Hnd Hun Hloop.
      destruct (minimax_min_loop_fresh _ _ _ _ _ IHmax PosInf None cm bm v cm'
                  Hnd Hun ltac:(done) Hloop) as (Hg & _ & Hfin).
      split; [apply Hfin; by left | done].
    + intros ca [bm v] cm' Hnd Hcm Hca Hloop alpha beta Hab.
      rewrite alphabeta_max_node_step by exact Ht.
      apply (alphabeta_max_loop_agrees _ _ _ _ _ _ IHmin IHamin
               NegInf None cm NegInf None alpha ca alpha beta bm v cm');
        try done.
      by apply max_loops_agree_init.
    + intros ca [bm v] cm' Hnd Hcm Hca Hloop alpha beta Hab.
      rewrite alphabeta_min_node_step by exact Ht.
      apply (alphabeta_min_loop_agrees _ _ _ _ _ _ IHmax IHamax
               PosInf None cm PosInf None beta ca alpha beta bm v cm');
        try done.
      by apply min_loops_agree_init.
Qed.

End NoHits.

Section Equivalence.
Context {rules : OthelloShared}.
Variables (valid : board -> Prop) (measure : board -> nat).
Hypothesis fills : cell_filling valid measure.

(** X19: with ordering disabled and both searches started on the same
    cache, alpha-beta returns the move and the value of minimax whenever no
    cache lookup can hit: no board of the search tree below the root is in
    the cache at the start, and none occurs twice in the tree.  Pruning by
    itself never changes the answer. *)
Theorem alphabeta_is_minimax_without_hits fuel b color limit caching
    (cached : cache) :
  enough valid measure fuel b limit ->
  NoDup (subtree fuel b color limit) ->
  unseen cached (subtree fuel b color limit) ->
  exists bm v cm ca,
    minimax_max_node fuel b color limit caching cached = Ret ((bm, v), cm)
    /\ alphabeta_max_node fuel b color NegInf PosInf limit caching 0 cached
      = Ret ((bm, v), ca)
    /\ select_move_minimax fuel b color limit caching cached = Ret (bm, cm)
    /\ select_move_alphabeta fuel b color limit caching 0 cached
      = Ret (bm, ca).
Proof.
  intros He Hnd Hun.
  destruct (nodes_total valid measure fills fuel b color limit caching
              cached He) as ((bm & v & cm & Hmax & _) & _).
  destruct (nodes_agree fuel color limit caching) as (Hfresh & _ & Hagree & _).
  destruct (Hfresh b cached (bm, v) cm Hnd Hun Hmax) as [[z Hz] _].
  simpl in Hz. subst v.
  destruct (Hagree b cached cached (bm, Fin z) cm Hnd Hun Hun Hmax
              NegInf PosInf eq_refl)
    as (am & av & ca & Hab & _ & (_ & _ & Hv) & Hm).
  simpl in Hv, Hm. rewrite (Hv eq_refl eq_refl) in Hab.
  rewrite (Hm eq_refl eq_refl) in Hab.
  exists bm, (Fin z), cm, ca.
  unfold select_move_minimax, select_move_alphabeta.
  rewrite Hmax, Hab. done.
Qed.

End Equivalence.

(** C1 fails on the code: five moves from the end of a [4 x 4] game, depth
    limit 4, [caching = 0], ordering off, both searches started on an empty
    dictionary, minimax answers [(0, 0)] with value [-5] and alpha-beta
    [(1, 0)] with value [-3].  Although caching is off, the alpha-beta nodes
    store every child result in the dictionary, also the bound a cut-off
    node returns: [late4_cut] is left after its first move with
    [((0, 3), -3)], while its value at that depth is [-5].  The same board
    comes up again, at the same depth and with the same player to move,
    under the root's second move, and the stored bound is read as its
    value. *)
Lemma alphabeta_differs_from_minimax :
  answer (select_move_minimax 4 Othello.late4 2 4 0 ∅)
  = Ret (Some (MoveTuple (0, 0)))
  /\ answer (select_move_alphabeta 4 Othello.late4 2 4 0 0 ∅)
    = Ret (Some (MoveTuple (1, 0)))
  /\ answer (minimax_max_node 4 Othello.late4 2 4 0 ∅)
    = Ret (Some (MoveTuple (0, 0)), Fin (-5))
  /\ answer (alphabeta_max_node 4 Othello.late4 2 NegInf PosInf 4 0 0 ∅)
    = Ret (Some (MoveTuple (1, 0)), Fin (-3))
  /\ cached_after_alphabeta4 !! late4_cut
    = Some (Some (MoveTuple (0, 3)), Fin (-3))
  /\ answer (minimax_min_node 1 late4_cut 1 1 0 ∅)
    = Ret (Some (MoveTuple (2, 3)), Fin (-5))
  /\ answer (alphabeta_min_node 1 late4_cut 1 NegInf PosInf 1 0 0 ∅)
    = Ret (Some (MoveTuple (2, 3)), Fin (-5))
  /\ play_move (play_move (play_move Othello.late4 2 1 0) 1 0 1) 2 0 0
    = late4_cut.
Proof. repeat split; vm_compute; reflexivity. Qed.

Lemma alphabeta_is_minimax_without_hits_opening :
  enough (fun b : board => Othello.square b = true) Othello.empties
    2 Othello.start4 2
  /\ NoDup (subtree 2 Othello.start4 1 2)
  /\ unseen (∅ : cache) (subtree 2 Othello.start4 1 2)
  /\ exists bm v cm ca,
      minimax_max_node 2 Othello.start4 1 2 0 ∅ = Ret ((bm, v), cm)
      /\ alphabeta_max_node 2 Othello.start4 1 NegInf PosInf 2 0 0 ∅
        = Ret ((bm, v), ca)
      /\ select_move_minimax 2 Othello.start4 1 2 0 ∅ = Ret (bm, cm)
      /\ select_move_alphabeta 2 Othello.start4 1 2 0 0 ∅ = Ret (bm, ca).
Proof.
  assert (He : enough (fun b : board => Othello.square b = true)
                 Othello.empties 2 Othello.start4 2) by (left; lia).
  assert (Hnd : NoDup (subtree 2 Othello.start4 1 2))
    by (apply (bool_decide_unpack
                 (NoDup (subtree (rules := othello_rules) 2 Othello.start4 1 2)));
        vm_compute; exact I).
  assert (Hun : unseen (∅ : cache) (subtree 2 Othello.start4 1 2))
    by (intros x _; apply lookup_empty).
  repeat (split; [assumption |]).
  exact (alphabeta_is_minimax_without_hits _ _ othello_cell_filling
           2 Othello.start4 1 2 0 ∅ He Hnd Hun).
Defined.

(** * Further properties of the search *)

(** ** The cache only grows *)

Section Growth.
Context {rules : OthelloShared}.

Lemma cached_or_grows child nb (c : cache) r c' :
  keeps_entries child ->
  cached_or child nb c = Ret (r, c') ->
  c ⊆ c' /\ c' !! nb = Some r.
Proof.
  intros Hk. unfold cached_or.
  destruct (c !! nb) as [r0|] eqn:E.
  - intros [= <- <-]. done.
  - destruct (child nb c) as [[r1 c1]| |] eqn:Ec; simpl; try discriminate.
    intros [= <- <-]. split; [| apply lookup_insert_eq].
    apply map_subseteq_spec. intros k v Hkv.
    rewrite lookup_insert_ne by congruence.
    eapply lookup_weaken; [exact Hkv |]. eapply Hk, Ec.
Qed.

Lemma minimax_max_loop_grows child b color moves :
  keeps_entries child ->
  forall value best (c : cache) res c',
    minimax_max_loop child b color moves value best c = Ret (res, c') ->
    c ⊆ c'.
Proof.
  intros Hk. induction moves as [|mv moves IH]; intros value best c res c'; simpl.
  - intros [= _ <-]. done.
  - destruct (play_move_py b color (index0 mv) (index1 mv)) as [nb| |]; simpl;
      try discriminate.
    destruct (cached_or child nb c) as [[[nm nv] c1]| |] eqn:Ec; simpl;
      try discriminate.
    destruct (cached_or_grows _ _ _ _ _ Hk Ec) as [Hsub _].
    destruct (ext_ltb value nv); intros Hloop;
      (etrans; [exact Hsub | eapply IH, Hloop]).
Qed.

Lemma minimax_min_loop_grows child b color moves :
  keeps_entries child ->
  forall value best (c : cache) res c',
    minimax_min_loop child b color moves value best c = Ret (res, c') ->
    c ⊆ c'.
Proof.
  intros Hk. induction moves as [|mv moves IH]; intros value best c res c'; simpl.
  - intros [= _ <-]. done.
  - destruct (play_move_py b color (index0 mv) (index1 mv)) as [nb| |]; simpl;
      try discriminate.
    destruct (cached_or child nb c) as [[[nm nv] c1]| |] eqn:Ec; simpl;
      try discriminate.
    destruct (cached_or_grows _ _ _ _ _ Hk Ec) as [Hsub _].
    destruct (ext_ltb nv value); intros Hloop;
      (etrans; [exact Hsub | eapply IH, Hloop]).
Qed.

Lemma alphabeta_max_loop_grows child b color moves :
  (forall alpha beta, keeps_entries (fun nb c => child nb alpha beta c)) ->
  forall alpha beta value best (c : cache) res c',
    alphabeta_max_loop child b color moves alpha beta value best c
    = Ret (res, c') ->
    c ⊆ c'.
Proof.
  intros Hk. induction moves as [|mv moves IH];
    intros alpha beta value best c res c'; simpl.
  - intros [= _ <-]. done.
  - destruct (play_move_py b color (index0 mv) (index1 mv)) as [nb| |]; simpl;
      try discriminate.
    destruct (cached_or _ nb c) as [[[nm nv] c1]| |] eqn:Ec; simpl;
      try discriminate.
    destruct (cached_or_grows _ _ _ _ _ (Hk alpha beta) Ec) as [Hsub _].
    destruct (ext_ltb value nv);
      match goal with |- context [ext_leb ?x ?y] => destruct (ext_leb x y) end;
      intros Hloop;
      first [ by injection Hloop as _ <-
            | etrans; [exact Hsub | eapply IH, Hloop] ].
Qed.

Lemma alphabeta_min_loop_grows child b color moves :
  (forall alpha beta, keeps_entries (fun nb c => child nb alpha beta c)) ->
  forall alpha beta value best (c : cache) res c',
    alphabeta_min_loop child b color moves alpha beta value best c
    = Ret (res, c') ->
    c ⊆ c'.
Proof.
  intros Hk. induction moves as [|mv moves IH];
    intros alpha beta value best c res c'; simpl.
  - intros [= _ <-]. done.
  - destruct (play_move_py b color (index0 mv) (index1 mv)) as [nb| |]; simpl;
      try discriminate.
    destruct (cached_or _ nb c) as [[[nm nv] c1]| |] eqn:Ec; simpl;
      try discriminate.
    destruct (cached_or_grows _ _ _ _ _ (Hk alpha beta) Ec) as [Hsub _].
    destruct (ext_ltb nv value);
      match goal with |- context [ext_leb ?x ?y] => destruct (ext_leb x y) end;
      intros Hloop;
      first [ by injection Hloop as _ <-
            | etrans; [exact Hsub | eapply IH, Hloop] ].
Qed.

(** No node removes or overwrites an entry that was in the dictionary when
    it was called. *)
Lemma nodes_grow fuel :
  forall color limit caching ordering,
    keeps_entries (fun b c => minimax_max_node fuel b color limit caching c)
    /\ keeps_entries (fun b c => minimax_min_node fuel b color limit caching c)
    /\ (forall alpha beta,
          keeps_entries
            (fun b c => alphabeta_max_node fuel b color alpha beta limit
                          caching ordering c))
    /\ (forall alpha beta,
          keeps_entries
            (fun b c => alphabeta_min_node fuel b color alpha beta limit
                          caching ordering c)).
Proof.
  induction fuel as [|fuel IH]; intros color limit caching ordering.
  - refine (conj _ (conj _ (conj _ _))); intros; intros nb c r c';
      destruct (terminal (get_possible_moves nb color) limit) eqn:Ht;
      simpl; rewrite Ht; (by intros [= _ <-]) || discriminate.
  - destruct (IH (opponent_of color) (limit - 1) caching ordering)
      as (IHmax & IHmin & IHamax & IHamin).
    refine (conj _ (conj _ (conj _ _))); intros; intros nb c r c';
      destruct (terminal (get_possible_moves nb color) limit) eqn:Ht;
      simpl; rewrite Ht; try (by intros [= _ <-]).
    + by apply minimax_max_loop_grows.
    + by apply minimax_min_loop_grows.
    + by apply alphabeta_max_loop_grows.
    + by apply alphabeta_min_loop_grows.
Qed.

End Growth.

(** ** Searching again *)

Section Replay.
Context {rules : OthelloShared}.

Lemma cached_or_hit child nb (c : cache) r :
  c !! nb = Some r -> cached_or child nb c = Ret (r, c).
Proof. intros H. unfold cached_or. by rewrite H. Qed.

Lemma minimax_max_loop_replay child child' b color moves :
  keeps_entries child ->
  forall value best (c : cache) res c' c'',
    minimax_max_loop child b color moves value best c = Ret (res, c') ->
    c' ⊆ c'' ->
    minimax_max_loop child' b color moves value best c'' = Ret (res, c'').
Proof.
  intros Hk. induction moves as [|mv moves IH];
    intros value best c res c' c''; simpl.
  - intros [= <- _] _. done.
  - destruct (play_move_py b color (index0 mv) (index1 mv)) as [nb| |]; simpl;
      try discriminate.
    destruct (cached_or child nb c) as [[[nm nv] c1]| |] eqn:Ec; simpl;
      try discriminate.
    destruct (cached_or_grows _ _ _ _ _ Hk Ec) as [_ Hnb].
    intros Hloop Hsub.
    assert (Hsub1 : c1 ⊆ c').
    { destruct (ext_ltb value nv); eapply minimax_max_loop_grows; eauto. }
    rewrite (cached_or_hit child' nb c'' (nm, nv))
      by (eapply lookup_weaken; [exact Hnb | by etrans]).
    simpl. destruct (ext_ltb value nv); eapply IH; eauto.
Qed.

Lemma minimax_min_loop_replay child child' b color moves :
  keeps_entries child ->
  forall value best (c : cache) res c' c'',
    minimax_min_loop child b color moves value best c = Ret (res, c') ->
    c' ⊆ c'' ->
    minimax_min_loop child' b color moves value best c'' = Ret (res, c'').
Proof.
  intros Hk. induction moves as [|mv moves IH];
    intros value best c res c' c''; simpl.
  - intros [= <- _] _. done.
  - destruct (play_move_py b color (index0 mv) (index1 mv)) as [nb| |]; simpl;
      try discriminate.
    destruct (cached_or child nb c) as [[[nm nv] c1]| |] eqn:Ec; simpl;
      try discriminate.
    destruct (cached_or_grows _ _ _ _ _ Hk Ec) as [_ Hnb].
    intros Hloop Hsub.
    assert (Hsub1 : c1 ⊆ c').
    { destruct (ext_ltb nv value); eapply minimax_min_loop_grows; eauto. }
    rewrite (cached_or_hit child' nb c'' (nm, nv))
      by (eapply lookup_weaken; [exact Hnb | by etrans]).
    simpl. destruct (ext_ltb nv value); eapply IH; eauto.
Qed.

Lemma alphabeta_max_loop_replay child child' b color moves :
  (forall alpha beta, keeps_entries (fun nb c => child nb alpha beta c)) ->
  forall alpha beta value best (c : cache) res c' c'',
    alphabeta_max_loop child b color moves alpha beta value best c
    = Ret (res, c') ->
    c' ⊆ c'' ->
    alphabeta_max_loop child' b color moves alpha beta value best c''
    = Ret (res, c'').
Proof.
  intros Hk. induction moves as [|mv moves IH];
    intros alpha beta value best c res c' c''; simpl.
  - intros [= <- _] _. done.
  - destruct (play_move_py b color (index0 mv) (index1 mv)) as [nb| |]; simpl;
      try discriminate.
    destruct (cached_or _ nb c) as [[[nm nv] c1]| |] eqn:Ec; simpl;
      try discriminate.
    destruct (cached_or_grows _ _ _ _ _ (Hk alpha beta) Ec) as [_ Hnb].
    intros Hloop Hsub.
    assert (Hsub1 : c1 ⊆ c').
    { revert Hloop. destruct (ext_ltb value nv);
        match goal with |- context [ext_leb ?x ?y] => destruct (ext_leb x y) end;
        intros Hloop;
        first [ by injection Hloop as _ <-
              | eapply alphabeta_max_loop_grows; eauto ]. }
    rewrite (cached_or_hit _ nb c'' (nm, nv))
      by (eapply lookup_weaken; [exact Hnb | by etrans]).
    simpl. revert Hloop. destruct (ext_ltb value nv);
      match goal with |- context [ext_leb ?x ?y] => destruct (ext_leb x y) end;
      intros Hloop;
      first [ by injection Hloop as <- _ | eapply IH; eauto ].
Qed.

(** A maximize loop of minimax that starts at [inf] stays there. *)
Lemma minimax_max_loop_top child b color moves :
  forall best (c : cache) res c',
    minimax_max_loop child b color moves PosInf best c = Ret (res, c') ->
    res = (best, PosInf).
Proof.
  induction moves as [|mv moves IH]; intros best c res c'; simpl.
  - by intros [= <- _].
  - destruct (play_move_py b color (index0 mv) (index1 mv)) as [nb| |]; simpl;
      try discriminate.
    destruct (cached_or child nb c) as [[[nm nv] c1]| |]; simpl;
      try discriminate.
    apply IH.
Qed.

Lemma ext_leb_top v : ext_leb PosInf v = true -> v = PosInf.
Proof. by destruct v. Qed.

(** The root loop of alpha-beta run over what a minimax root loop left in
    the cache: every child is found there, and the window [(alpha, inf)]
    cuts off only at a value nothing can exceed. *)
Lemma alphabeta_after_minimax_loop child child' b color moves :
  keeps_entries child ->
  forall alpha value best (c : cache) res c' c'',
    minimax_max_loop child b color moves value best c = Ret (res, c') ->
    c' ⊆ c'' ->
    alphabeta_max_loop child' b color moves alpha PosInf value best c''
    = Ret (res, c'').
Proof.
  intros Hk. induction moves as [|mv moves IH];
    intros alpha value best c res c' c''; simpl.
  - intros [= <- _] _. done.
  - destruct (play_move_py b color (index0 mv) (index1 mv)) as [nb| |]; simpl;
      try discriminate.
    destruct (cached_or child nb c) as [[[nm nv] c1]| |] eqn:Ec; simpl;
      try discriminate.
    destruct (cached_or_grows _ _ _ _ _ Hk Ec) as [_ Hnb].
    intros Hloop Hsub.
    assert (Hsub1 : c1 ⊆ c').
    { destruct (ext_ltb value nv); eapply minimax_max_loop_grows; eauto. }
    rewrite (cached_or_hit _ nb c'' (nm, nv))
      by (eapply lookup_weaken; [exact Hnb | by etrans]).
    simpl. destruct (ext_ltb value nv);
      match goal with
      | |- context [ext_leb PosInf ?v] =>
          destruct (ext_leb PosInf v) eqn:Hcut;
          [apply ext_leb_top in Hcut; subst;
           by rewrite (minimax_max_loop_top _ _ _ _ _ _ _ _ Hloop)
          | eapply IH; eauto]
      end.
Qed.

(** X2: a search repeated on the cache it left answers as before and leaves
    the cache alone, whatever the new depth limit and caching flag, as long
    as neither limit is [0]: every successor of the root is found in the
    cache.  For minimax. *)
Theorem minimax_search_repeats fuel fuel' b color limit limit' caching caching'
    (cached cached' : cache) r :
  minimax_max_node fuel b color limit caching cached = Ret (r, cached') ->
  limit <> 0 -> limit' <> 0 ->
  minimax_max_node (S fuel') b color limit' caching' cached' = Ret (r, cached')
  /\ select_move_minimax (S fuel') b color limit' caching' cached'
    = Ret (fst r, cached').
Proof.
  intros Hrun Hl Hl'.
  assert (Hnode : minimax_max_node (S fuel') b color limit' caching' cached'
                  = Ret (r, cached')).
  { destruct (get_possible_moves b color) as [|m ms] eqn:Em.
    - rewrite minimax_max_node_terminal in Hrun by (by rewrite Em).
      injection Hrun as <- <-.
      apply minimax_max_node_terminal. by rewrite Em.
    - assert (Ht : terminal (get_possible_moves b color) limit = false)
        by (rewrite Em; simpl; by apply Z.eqb_neq).
      assert (Ht' : terminal (get_possible_moves b color) limit' = false)
        by (rewrite Em; simpl; by apply Z.eqb_neq).
      destruct fuel as [|fuel]; [simpl in Hrun; rewrite Ht in Hrun; discriminate |].
      rewrite minimax_max_node_step in Hrun |- * by done.
      eapply minimax_max_loop_replay; [| exact Hrun | done].
      apply (nodes_grow fuel (opponent_of color) (limit - 1) caching 0). }
  split; [exact Hnode |].
  unfold select_move_minimax. rewrite Hnode. by destruct r.
Qed.

(** X3: an alpha-beta search, ordering off, repeated on the cache it left
    answers as before and leaves the cache alone, whatever the new depth
    limit and caching flag, as long as neither limit is [0]. *)
Theorem alphabeta_search_repeats fuel fuel' b color limit limit' caching caching'
    (cached cached' : cache) r :
  alphabeta_max_node fuel b color NegInf PosInf limit caching 0 cached
  = Ret (r, cached') ->
  limit <> 0 -> limit' <> 0 ->
  alphabeta_max_node (S fuel') b color NegInf PosInf limit' caching' 0 cached'
  = Ret (r, cached')
  /\ select_move_alphabeta (S fuel') b color limit' caching' 0 cached'
    = Ret (fst r, cached').
Proof.
  intros Hrun Hl Hl'.
  assert (Hnode : alphabeta_max_node (S fuel') b color NegInf PosInf limit'
                    caching' 0 cached' = Ret (r, cached')).
  { destruct (get_possible_moves b color) as [|m ms] eqn:Em.
    - rewrite alphabeta_max_node_terminal in Hrun by (by rewrite Em).
      injection Hrun as <- <-.
      apply alphabeta_max_node_terminal. by rewrite Em.
    - assert (Ht : terminal (get_possible_moves b color) limit = false)
        by (rewrite Em; simpl; by apply Z.eqb_neq).
      assert (Ht' : terminal (get_possible_moves b color) limit' = false)
        by (rewrite Em; simpl; by apply Z.eqb_neq).
      destruct fuel as [|fuel]; [simpl in Hrun; rewrite Ht in Hrun; discriminate |].
      rewrite alphabeta_max_node_step in Hrun |- * by done.
      eapply alphabeta_max_loop_replay; [| exact Hrun | done].
      intros alpha beta.
      apply (nodes_grow fuel (opponent_of color) (limit - 1) caching 0). }
  split; [exact Hnode |].
  unfold select_move_alphabeta. rewrite Hnode. by destruct r.
Qed.

(** X4: alpha-beta, ordering off, run on the cache a minimax search of the
    same root left, returns the move and the value of that minimax search
    and leaves the cache alone. *)
Theorem alphabeta_after_minimax fuel fuel' b color limit limit' caching caching'
    (cached cached' : cache) r :
  minimax_max_node fuel b color limit caching cached = Ret (r, cached') ->
  limit <> 0 -> limit' <> 0 ->
  alphabeta_max_node (S fuel') b color NegInf PosInf limit' caching' 0 cached'
  = Ret (r, cached')
  /\ select_move_alphabeta (S fuel') b color limit' caching' 0 cached'
    = Ret (fst r, cached').
Proof.
  intros Hrun Hl Hl'.
  assert (Hnode : alphabeta_max_node (S fuel') b color NegInf PosInf limit'
                    caching' 0 cached' = Ret (r, cached')).
  { destruct (get_possible_moves b color) as [|m ms] eqn:Em.
    - rewrite minimax_max_node_terminal in Hrun by (by rewrite Em).
      injection Hrun as <- <-.
      apply alphabeta_max_node_terminal. by rewrite Em.
    - assert (Ht : terminal (get_possible_moves b color) limit = false)
        by (rewrite Em; simpl; by apply Z.eqb_neq).
      assert (Ht' : terminal (get_possible_moves b color) limit' = false)
        by (rewrite Em; simpl; by apply Z.eqb_neq).
      destruct fuel as [|fuel]; [simpl in Hrun; rewrite Ht in Hrun; discriminate |].
      rewrite minimax_max_node_step in Hrun by done.
      rewrite alphabeta_max_node_step by done.
      unfold ordering_block. simpl.
      eapply alphabeta_after_minimax_loop; [| exact Hrun | done].
      apply (nodes_grow fuel (opponent_of color) (limit - 1) caching 0). }
  split; [exact Hnode |].
  unfold select_move_alphabeta. rewrite Hnode. by destruct r.
Qed.

End Replay.

(** ** Only integers are returned and stored *)

Section Finite.
Context {rules : OthelloShared}.

Lemma cache_finite_insert (c : cache) k r z :
  cache_finite c -> snd r = Fin z -> cache_finite (<[k := r]> c).
Proof.
  intros Hc Hr k' r'. rewrite lookup_insert. case_decide.
  - intros [= <-]. by eexists.
  - apply Hc.
Qed.

Lemma cached_or_finite child nb (c : cache) r c' :
  finite_node child -> cache_finite c ->
  cached_or child nb c = Ret (r, c') ->
  (exists z, snd r = Fin z) /\ cache_finite c'.
Proof.
  intros Hf Hc. unfold cached_or.
  destruct (c !! nb) as [r0|] eqn:E.
  - intros [= <- <-]. split; [by eapply Hc | done].
  - destruct (child nb c) as [[r1 c1]| |] eqn:Ec; simpl; try discriminate.
    intros [= <- <-]. destruct (Hf _ _ _ _ Hc Ec) as [[z Hz] Hc1].
    split; [by eexists | by eapply cache_finite_insert].
Qed.

Lemma ext_not_lt_fin value z :
  value <> PosInf -> ext_ltb value (Fin z) = false -> exists z', value = Fin z'.
Proof. destruct value; try done. by eexists. Qed.

Lemma ext_not_gt_fin value z :
  value <> NegInf -> ext_ltb (Fin z) value = false -> exists z', value = Fin z'.
Proof. destruct value; try done. by eexists. Qed.

Lemma minimax_max_loop_finite child b color moves :
  finite_node child ->
  forall value best (c : cache) bm v c',
    cache_finite c -> value <> PosInf -> (value = NegInf \/ best <> None) ->
    minimax_max_loop child b color moves value best c = Ret ((bm, v), c') ->
    cache_finite c'
    /\ ((moves <> [] \/ exists z, value = Fin z) -> exists z, v = Fin z)
    /\ ((moves <> [] \/ best <> None) -> bm <> None).
Proof.
  intros Hf. induction moves as [|mv moves IH];
    intros value best c bm v c' Hc Hv Hvb; simpl.
  - intros [= <- <- <-]. split; [done |]. split; intros [?|?]; done.
  - destruct (play_move_py b color (index0 mv) (index1 mv)) as [nb| |]; simpl;
      try discriminate.
    destruct (cached_or child nb c) as [[[nm nv] c1]| |] eqn:Ec; simpl;
      try discriminate.
    destruct (cached_or_finite _ _ _ _ _ Hf Hc Ec) as [[z Hz] Hc1].
    simpl in Hz. subst nv.
    destruct (ext_ltb value (Fin z)) eqn:Hlt; intros Hloop.
    + destruct (IH (Fin z) (Some mv) _ _ _ _ Hc1 ltac:(done) ltac:(by right) Hloop)
        as (Hc' & Hfin & Hbm).
      split; [done |]. split; intros _; [apply Hfin | apply Hbm]; right;
        [by eexists | done].
    + destruct (ext_not_lt_fin _ _ Hv Hlt) as [z' ->].
      destruct Hvb as [?|Hb]; [done |].
      destruct (IH (Fin z') best _ _ _ _ Hc1 Hv ltac:(by right) Hloop)
        as (Hc' & Hfin & Hbm).
      split; [done |]. split; intros _; [apply Hfin | apply Hbm]; right;
        [by eexists | done].
Qed.

Lemma minimax_min_loop_finite child b color moves :
  finite_node child ->
  forall value best (c : cache) bm v c',
    cache_finite c -> value <> NegInf -> (value = PosInf \/ best <> None) ->
    minimax_min_loop child b color moves value best c = Ret ((bm, v), c') ->
    cache_finite c'
    /\ ((moves <> [] \/ exists z, value = Fin z) -> exists z, v = Fin z)
    /\ ((moves <> [] \/ best <> None) -> bm <> None).
Proof.
  intros Hf. induction moves as [|mv moves IH];
    intros value best c bm v c' Hc Hv Hvb; simpl.
  - intros [= <- <- <-]. split; [done |]. split; intros [?|?]; done.
  - destruct (play_move_py b color (index0 mv) (index1 mv)) as [nb| |]; simpl;
      try discriminate.
    destruct (cached_or child nb c) as [[[nm nv] c1]| |] eqn:Ec; simpl;
      try discriminate.
    destruct (cached_or_finite _ _ _ _ _ Hf Hc Ec) as [[z Hz] Hc1].
    simpl in Hz. subst nv.
    destruct (ext_ltb (Fin z) value) eqn:Hlt; intros Hloop.
    + destruct (IH (Fin z) (Some mv) _ _ _ _ Hc1 ltac:(done) ltac:(by right) Hloop)
        as (Hc' & Hfin & Hbm).
      split; [done |]. split; intros _; [apply Hfin | apply Hbm]; right;
        [by eexists | done].
    + destruct (ext_not_gt_fin _ _ Hv Hlt) as [z' ->].
      destruct Hvb as [?|Hb]; [done |].
      destruct (IH (Fin z') best _ _ _ _ Hc1 Hv ltac:(by right) Hloop)
        as (Hc' & Hfin & Hbm).
      split; [done |]. split; intros _; [apply Hfin | apply Hbm]; right;
        [by eexists | done].
Qed.

Lemma alphabeta_max_loop_finite child b color moves :
  (forall alpha beta, finite_node (fun nb c => child nb alpha beta c)) ->
  forall alpha beta value best (c : cache) bm v c',
    cache_finite c -> value <> PosInf -> (value = NegInf \/ best <> None) ->
    alphabeta_max_loop child b color moves alpha beta value best c
    = Ret ((bm, v), c') ->
    cache_finite c'
    /\ ((moves <> [] \/ exists z, value = Fin z) -> exists z, v = Fin z)
    /\ ((moves <> [] \/ best <> None) -> bm <> None).
Proof.
  intros Hf. induction moves as [|mv moves IH];
    intros alpha beta value best c bm v c' Hc Hv Hvb; simpl.
  - intros [= <- <- <-]. split; [done |]. split; intros [?|?]; done.
  - destruct (play_move_py b color (index0 mv) (index1 mv)) as [nb| |]; simpl;
      try discriminate.
    destruct (cached_or _ nb c) as [[[nm nv] c1]| |] eqn:Ec; simpl;
      try discriminate.
    destruct (cached_or_finite _ _ _ _ _ (Hf alpha beta) Hc Ec) as [[z Hz] Hc1].
    simpl in Hz. subst nv.
    destruct (ext_ltb value (Fin z)) eqn:Hlt.
    + destruct (ext_leb beta (Fin z)); intros Hloop.
      * injection Hloop as <- <- <-. split; [done |].
        split; intros _; [by eexists | done].
      * destruct (IH _ _ (Fin z) (Some mv) _ _ _ _ Hc1 ltac:(done) ltac:(by right) Hloop)
          as (Hc' & Hfin & Hbm).
        split; [done |]. split; intros _; [apply Hfin | apply Hbm]; right;
          [by eexists | done].
    + destruct (ext_not_lt_fin _ _ Hv Hlt) as [z' ->].
      destruct Hvb as [?|Hb]; [done |].
      destruct (ext_leb beta (Fin z')); intros Hloop.
      * injection Hloop as <- <- <-. split; [done |].
        split; intros _; [by eexists | done].
      * destruct (IH _ _ (Fin z') best _ _ _ _ Hc1 Hv ltac:(by right) Hloop)
          as (Hc' & Hfin & Hbm).
        split; [done |]. split; intros _; [apply Hfin | apply Hbm]; right;
          [by eexists | done].
Qed.

Lemma alphabeta_min_loop_finite child b color moves :
  (forall alpha beta, finite_node (fun nb c => child nb alpha beta c)) ->
  forall alpha beta value best (c : cache) bm v c',
    cache_finite c -> value <> NegInf -> (value = PosInf \/ best <> None) ->
    alphabeta_min_loop child b color moves alpha beta value best c
    = Ret ((bm, v), c') ->
    cache_finite c'
    /\ ((moves <> [] \/ exists z, value = Fin z) -> exists z, v = Fin z)
    /\ ((moves <> [] \/ best <> None) -> bm <> None).
Proof.
  intros Hf. induction moves as [|mv moves IH];
    intros alpha beta value best c bm v c' Hc Hv Hvb; simpl.
  - intros [= <- <- <-]. split; [done |]. split; intros [?|?]; done.
  - destruct (play_move_py b color (index0 mv) (index1 mv)) as [nb| |]; simpl;
      try discriminate.
    destruct (cached_or _ nb c) as [[[nm nv] c1]| |] eqn:Ec; simpl;
      try discriminate.
    destruct (cached_or_finite _ _ _ _ _ (Hf alpha beta) Hc Ec) as [[z Hz] Hc1].
    simpl in Hz. subst nv.
    destruct (ext_ltb (Fin z) value) eqn:Hlt.
    + destruct (ext_leb (Fin z) alpha); intros Hloop.
      * injection Hloop as <- <- <-. split; [done |].
        split; intros _; [by eexists | done].
      * destruct (IH _ _ (Fin z) (Some mv) _ _ _ _ Hc1 ltac:(done) ltac:(by right) Hloop)
          as (Hc' & Hfin & Hbm).
        split; [done |]. split; intros _; [apply Hfin | apply Hbm]; right;
          [by eexists | done].
    + destruct (ext_not_gt_fin _ _ Hv Hlt) as [z' ->].
      destruct Hvb as [?|Hb]; [done |].
      destruct (ext_leb (Fin z') alpha); intros Hloop.
      * injection Hloop as <- <- <-. split; [done |].
        split; intros _; [by eexists | done].
      * destruct (IH _ _ (Fin z') best _ _ _ _ Hc1 Hv ltac:(by right) Hloop)
          as (Hc' & Hfin & Hbm).
        split; [done |]. split; intros _; [apply Hfin | apply Hbm]; right;
          [by eexists | done].
Qed.

End Finite.

Section FiniteNodes.
Context {rules : OthelloShared}.

Lemma ordering_block_nonempty b color ordering moves :
  moves <> [] -> ordering_block b color ordering moves <> [].
Proof.
  destruct moves as [|m moves]; [done |]. intros _.
  destruct (Z.eq_dec ordering 0) as [->|Ho].
  - discriminate.
  - destruct (ordering_block_scored b color ordering m moves Ho)
      as (m' & u & rest & ->).
    discriminate.
Qed.

Lemma nodes_finite fuel :
  forall color limit caching ordering,
    finite_node (fun b c => minimax_max_node fuel b color limit caching c)
    /\ finite_node (fun b c => minimax_min_node fuel b color limit caching c)
    /\ (forall alpha beta,
          finite_node
            (fun b c => alphabeta_max_node fuel b color alpha beta limit
                          caching ordering c))
    /\ (forall alpha beta,
          finite_node
            (fun b c => alphabeta_min_node fuel b color alpha beta limit
                          caching ordering c)).
Proof.
  induction fuel as [|fuel IH]; intros color limit caching ordering.
  - refine (conj _ (conj _ (conj _ _))); intros; intros nb c r c' Hc;
      destruct (terminal (get_possible_moves nb color) limit) eqn:Ht;
      simpl; rewrite Ht; try discriminate;
      intros [= <- <-]; (split; [by eexists | done]).
  - destruct (IH (opponent_of color) (limit - 1) caching ordering)
      as (IHmax & IHmin & IHamax & IHamin).
    refine (conj _ (conj _ (conj _ _))); intros; intros nb c [bm v] c' Hc;
      destruct (terminal (get_possible_moves nb color) limit) eqn:Ht;
      simpl; rewrite Ht;
      try (intros [= <- <- <-]; (split; [by eexists | done]));
      destruct (terminal_false _ _ Ht) as [Hne _]; intros Hloop.
    + destruct (minimax_max_loop_finite _ _ _ _ IHmin NegInf None _ _ _ _
                  Hc ltac:(done) ltac:(by left) Hloop) as (Hc' & Hfin & _).
      split; [| done]. apply Hfin. left. by destruct (get_possible_moves nb color).
    + destruct (minimax_min_loop_finite _ _ _ _ IHmax PosInf None _ _ _ _
                  Hc ltac:(done) ltac:(by left) Hloop) as (Hc' & Hfin & _).
      split; [| done]. apply Hfin. left. by destruct (get_possible_moves nb color).
    + destruct (alphabeta_max_loop_finite _ _ _ _ IHamin _ _ NegInf None _ _ _ _
                  Hc ltac:(done) ltac:(by left) Hloop) as (Hc' & Hfin & _).
      split; [| done]. apply Hfin. left. by apply ordering_block_nonempty.
    + destruct (alphabeta_min_loop_finite _ _ _ _ IHamax _ _ PosInf None _ _ _ _
                  Hc ltac:(done) ltac:(by left) Hloop) as (Hc' & Hfin & _).
      split; [| done]. apply Hfin. left. by apply ordering_block_nonempty.
Qed.

(** With integers in the dictionary, a maximize node that is not terminal
    remembers a move. *)
Lemma max_nodes_answer fuel b color limit caching (cached : cache) bm v c' :
  cache_finite cached ->
  terminal (get_possible_moves b color) limit = false ->
  (minimax_max_node fuel b color limit caching cached = Ret ((bm, v), c') ->
   bm <> None)
  /\ (alphabeta_max_node fuel b color NegInf PosInf limit caching 0 cached
      = Ret ((bm, v), c') ->
      bm <> None).
Proof.
  intros Hc Ht. destruct (terminal_false _ _ Ht) as [Hne _].
  destruct fuel as [|fuel]; simpl; rewrite Ht; [split; discriminate |].
  destruct (nodes_finite fuel (opponent_of color) (limit - 1) caching 0)
    as (_ & Hmin & _ & Hamin).
  split; intros Hloop.
  - destruct (minimax_max_loop_finite _ _ _ _ Hmin NegInf None _ _ _ _
                Hc ltac:(done) ltac:(by left) Hloop) as (_ & _ & Hbm).
    apply Hbm. left. by destruct (get_possible_moves b color).
  - destruct (alphabeta_max_loop_finite _ _ _ _ Hamin _ _ NegInf None _ _ _ _
                Hc ltac:(done) ltac:(by left) Hloop) as (_ & _ & Hbm).
    apply Hbm. left. by apply ordering_block_nonempty.
Qed.

Section WithFuel.
Variables (valid : board -> Prop) (measure : board -> nat).
Hypothesis fills : cell_filling valid measure.

Lemma select_moves_answer fuel b color limit caching (cached : cache) :
  cache_finite cached ->
  enough valid measure fuel b limit ->
  terminal (get_possible_moves b color) limit = false ->
  (exists m c',
      select_move_minimax fuel b color limit caching cached
      = Ret (Some (MoveTuple m), c')
      /\ m ∈ get_possible_moves b color)
  /\ (exists m c',
      select_move_alphabeta fuel b color limit caching 0 cached
      = Ret (Some (MoveTuple m), c')
      /\ m ∈ get_possible_moves b color).
Proof.
  intros Hc He Ht.
  destruct (nodes_total valid measure fills fuel b color limit caching
              cached He)
    as ((bm & v & c' & Hmax & Hl) & _ & Hab & _).
  destruct (Hab NegInf PosInf) as (bm' & v' & c'' & Hmax' & Hl').
  destruct (max_nodes_answer fuel b color limit caching cached bm v c' Hc Ht)
    as [Hbm _].
  destruct (max_nodes_answer fuel b color limit caching cached bm' v' c'' Hc Ht)
    as [_ Hbm'].
  unfold select_move_minimax, select_move_alphabeta.
  rewrite Hmax, Hmax'. simpl.
  destruct Hl as [->|(m & -> & Hm)]; [by destruct (Hbm Hmax) |].
  destruct Hl' as [->|(m' & -> & Hm')]; [by destruct (Hbm' Hmax') |].
  split; by eexists _, _.
Qed.

(** X5: the search returns and stores integers only.  Started on a cache
    whose values are integers, each engine returns an integer value and
    leaves a cache whose values are integers: the infinite starting values
    of the loops never get out. *)
Theorem search_values_are_integers fuel b color limit caching alpha beta
    (cached : cache) :
  cache_finite cached ->
  enough valid measure fuel b limit ->
  (exists bm z c',
      minimax_max_node fuel b color limit caching cached
      = Ret ((bm, Fin z), c')
      /\ cache_finite c')
  /\ (exists bm z c',
      alphabeta_max_node fuel b color alpha beta limit caching 0 cached
      = Ret ((bm, Fin z), c')
      /\ cache_finite c').
Proof.
  intros Hc He.
  destruct (nodes_total valid measure fills fuel b color limit caching
              cached He)
    as ((bm & v & c' & Hmax & _) & _ & Hab & _).
  destruct (Hab alpha beta) as (bm' & v' & c'' & Hmax' & _).
  destruct (nodes_finite fuel color limit caching 0) as (Hf & _ & Hfa & _).
  destruct (Hf b cached _ _ Hc Hmax) as [[z Hz] Hc'].
  destruct (Hfa alpha beta b cached _ _ Hc Hmax') as [[z' Hz'] Hc''].
  simpl in Hz, Hz'. subst v v'.
  split; by eexists _, _, _.
Qed.

(** X6: where the player has a legal move and the depth limit is not [0],
    each engine (alpha-beta with ordering off) answers with a legal move and
    never with the pass sentinel, provided the cache holds integers. *)
Theorem select_move_never_passes fuel b color limit caching (cached : cache) :
  cache_finite cached ->
  enough valid measure fuel b limit ->
  get_possible_moves b color <> [] -> limit <> 0 ->
  (exists m c',
      select_move_minimax fuel b color limit caching cached
      = Ret (Some (MoveTuple m), c')
      /\ m ∈ get_possible_moves b color)
  /\ (exists m c',
      select_move_alphabeta fuel b color limit caching 0 cached
      = Ret (Some (MoveTuple m), c')
      /\ m ∈ get_possible_moves b color).
Proof.
  intros Hc He Hne Hl. apply select_moves_answer; try done.
  destruct (get_possible_moves b color); [done |]. simpl. by apply Z.eqb_neq.
Qed.

(** X7: a forced move is played.  Where the player has exactly one legal
    move and the depth limit is not [0], both engines return that move. *)
Theorem forced_move_is_played fuel b color limit caching (cached : cache) m :
  cache_finite cached ->
  enough valid measure fuel b limit ->
  get_possible_moves b color = [m] -> limit <> 0 ->
  (exists c',
      select_move_minimax fuel b color limit caching cached
      = Ret (Some (MoveTuple m), c'))
  /\ (exists c',
      select_move_alphabeta fuel b color limit caching 0 cached
      = Ret (Some (MoveTuple m), c')).
Proof.
  intros Hc He Hm Hl.
  destruct (select_moves_answer fuel b color limit caching cached Hc He)
    as ((m1 & c1 & H1 & Hin1) & (m2 & c2 & H2 & Hin2)).
  { rewrite Hm. simpl. by apply Z.eqb_neq. }
  rewrite Hm in Hin1, Hin2.
  apply list_elem_of_singleton in Hin1, Hin2. subst m1 m2.
  split; by eexists.
Qed.

(** X8: one turn of [run_ai] sends a legal move.  With minimax, or alpha-beta
    with ordering off, where the player has a legal move and the depth limit
    is not [0], the two numbers written to the manager are the column and
    the row of a legal move. *)
Theorem run_ai_turn_sends_legal_move fuel color limit minimax caching ordering
    b (cached : cache) :
  minimax = 1 \/ ordering = 0 ->
  cache_finite cached ->
  enough valid measure fuel b limit ->
  get_possible_moves b color <> [] -> limit <> 0 ->
  exists i j c',
    run_ai_turn fuel color limit minimax caching ordering b cached
    = Ret ((PyInt i, PyInt j), c')
    /\ (i, j) ∈ get_possible_moves b color.
Proof.
  intros Hmode Hc He Hne Hl.
  destruct (select_moves_answer fuel b color limit caching cached Hc He)
    as (([i j] & c1 & H1 & Hin1) & ([i' j'] & c2 & H2 & Hin2)).
  { destruct (get_possible_moves b color); [done |]. simpl. by apply Z.eqb_neq. }
  unfold run_ai_turn, run_ai_select.
  destruct (Z.eqb_spec minimax 1) as [_|Hmm].
  - rewrite H1. simpl. by eexists _, _, _.
  - destruct Hmode as [? | ->]; [done |].
    rewrite H2. simpl. by eexists _, _, _.
Qed.

End WithFuel.

(** X9: [run_ai] cannot pass.  Where the player has no legal move, or the
    depth limit is [0], the search returns [None] and unpacking it into
    [movei, movej] raises [TypeError]: nothing is sent to the manager. *)
Theorem run_ai_turn_cannot_pass fuel color limit minimax caching ordering
    b (cached : cache) :
  get_possible_moves b color = [] \/ limit = 0 ->
  run_ai_turn fuel color limit minimax caching ordering b cached = TypeError.
Proof.
  intros H.
  assert (Ht : terminal (get_possible_moves b color) limit = true).
  { destruct H as [-> | ->]; [done |]. by destruct (get_possible_moves b color). }
  unfold run_ai_turn, run_ai_select, select_move_minimax, select_move_alphabeta.
  rewrite minimax_max_node_terminal, alphabeta_max_node_terminal by done.
  by destruct (minimax =? 1).
Qed.

(** X10: with ordering on, alpha-beta raises at every root that is not
    terminal, and so does the turn of [run_ai] that asked for it. *)
Theorem ordering_on_always_raises fuel color limit minimax caching ordering
    b (cached : cache) :
  ordering <> 0 -> get_possible_moves b color <> [] -> limit <> 0 ->
  select_move_alphabeta (S fuel) b color limit caching ordering cached
  = TypeError
  /\ (minimax <> 1 ->
      run_ai_turn (S fuel) color limit minimax caching ordering b cached
      = TypeError).
Proof.
  intros Ho Hne Hl.
  assert (Ht : terminal (get_possible_moves b color) limit = false).
  { destruct (get_possible_moves b color); [done |]. simpl. by apply Z.eqb_neq. }
  assert (Hsel : select_move_alphabeta (S fuel) b color limit caching ordering
                   cached = TypeError).
  { unfold select_move_alphabeta.
    by rewrite (proj1 (ordering_on_raises fuel b color NegInf PosInf limit
                         caching ordering cached Ho Ht)). }
  split; [exact Hsel |].
  intros Hmm%Z.eqb_neq. unfold run_ai_turn, run_ai_select.
  by rewrite Hmm, Hsel.
Qed.

(** X11: [caching] is never read.  Whatever the flag, each engine returns the
    same answer and leaves the same cache. *)
Theorem select_move_ignores_caching fuel b color limit caching caching'
    ordering (cached : cache) :
  select_move_minimax fuel b color limit caching cached
  = select_move_minimax fuel b color limit caching' cached
  /\ select_move_alphabeta fuel b color limit caching ordering cached
    = select_move_alphabeta fuel b color limit caching' ordering cached.
Proof.
  unfold select_move_minimax, select_move_alphabeta.
  destruct (nodes_ignore_caching fuel b color limit caching caching' ordering
              cached) as (-> & _ & Hab & _).
  by rewrite Hab.
Qed.

(** X12: a depth limit bounds the search whatever the game.  With a limit
    [0 <= limit], a call stack of depth [limit] is enough for both engines
    to return, for every rules engine, also one whose games never end. *)
Theorem depth_limited_search_returns b color limit caching (cached : cache) :
  0 <= limit ->
  (exists bm c',
      select_move_minimax (Z.to_nat limit) b color limit caching cached
      = Ret (bm, c')
      /\ pass_or_legal b color bm)
  /\ (exists bm c',
      select_move_alphabeta (Z.to_nat limit) b color limit caching 0 cached
      = Ret (bm, c')
      /\ pass_or_legal b color bm).
Proof.
  intros Hl.
  assert (Hfills : cell_filling (fun _ : board => False) (fun _ => 0%nat))
    by (intros ? ? ? ? []).
  assert (He : enough (fun _ : board => False) (fun _ => 0%nat)
                 (Z.to_nat limit) b limit) by (left; lia).
  destruct (nodes_total _ _ Hfills (Z.to_nat limit) b color limit caching
              cached He)
    as ((bm & v & c' & Hmax & Hp) & _ & Hab & _).
  destruct (Hab NegInf PosInf) as (bm' & v' & c'' & Hmax' & Hp').
  unfold select_move_minimax, select_move_alphabeta.
  rewrite Hmax, Hmax'. simpl. split; by eexists _, _.
Qed.

End FiniteNodes.

(** ** The one-ply heuristic *)

Section HeuristicFacts.
Context {rules : OthelloShared}.

Lemma heuristic_filter_cons b color mv rest acc :
  heuristic_filter b color (opponent_of color) (mv :: rest) acc
  = heuristic_filter b color (opponent_of color) rest
      (if heuristic_keeps b color mv
       then dict_set acc mv (util_diff b color mv) else acc).
Proof.
  unfold heuristic_keeps, util_diff. simpl.
  destruct (_ && _); simpl; [reflexivity |].
  destruct (_ <? 0); reflexivity.
Qed.

Lemma elem_of_dict_set d k v k' v' :
  (k', v') ∈ dict_set d k v -> (k', v') ∈ d \/ (k', v') = (k, v).
Proof.
  induction d as [|[k0 v0] d IH]; simpl.
  - intros ->%list_elem_of_singleton. by right.
  - destruct (decide (k0 = k)) as [->|Hne].
    + intros [->|H]%elem_of_cons; [by right | left; by right].
    + intros [->|H]%elem_of_cons; [left; left |].
      destruct (IH H) as [?|?]; [left; by right | by right].
Qed.

Lemma dict_set_keeps_keys d k v k' :
  k' ∈ d.*1 -> k' ∈ (dict_set d k v).*1.
Proof.
  induction d as [|[k0 v0] d IH]; simpl; [by intros ?%elem_of_nil |].
  destruct (decide (k0 = k)) as [->|Hne]; simpl.
  - intros [->|H]%elem_of_cons; [left | by right].
  - intros [->|H]%elem_of_cons; [left | right; by apply IH].
Qed.

Lemma dict_set_has_key d k v : k ∈ (dict_set d k v).*1.
Proof.
  induction d as [|[k0 v0] d IH]; simpl; [left |].
  destruct (decide (k0 = k)) as [->|Hne]; simpl; [left | by right].
Qed.

Lemma heuristic_filter_keeps_keys b color moves :
  forall acc k,
    k ∈ acc.*1 ->
    k ∈ (heuristic_filter b color (opponent_of color) moves acc).*1.
Proof.
  induction moves as [|mv moves IH]; intros acc k H; [done |].
  rewrite heuristic_filter_cons.
  destruct (heuristic_keeps b color mv); apply IH; [| done].
  by apply dict_set_keeps_keys.
Qed.

(** The dictionary built by the first loop: its keys are the moves that
    pass both tests, each with its [util_diff]. *)
Lemma heuristic_filter_spec b color moves :
  forall acc,
    (forall k v, (k, v) ∈ acc ->
       heuristic_keeps b color k = true /\ v = util_diff b color k) ->
    let d := heuristic_filter b color (opponent_of color) moves acc in
    (forall k v, (k, v) ∈ d ->
       ((k, v) ∈ acc \/ k ∈ moves)
       /\ heuristic_keeps b color k = true /\ v = util_diff b color k)
    /\ (forall k, k ∈ moves -> heuristic_keeps b color k = true -> k ∈ d.*1).
Proof.
  induction moves as [|mv moves IH]; intros acc Hacc.
  - simpl. split.
    + intros k v H. split; [by left | by apply Hacc].
    + intros k []%elem_of_nil.
  - cbv zeta. rewrite heuristic_filter_cons.
    destruct (heuristic_keeps b color mv) eqn:Ek.
    + destruct (IH (dict_set acc mv (util_diff b color mv))) as [H1 H2].
      { intros k v [H|[= -> ->]]%elem_of_dict_set; [by apply Hacc | done]. }
      split.
      * intros k v H. destruct (H1 k v H) as ([Hd|Hm] & ? & ?).
        -- split; [| done].
           apply elem_of_dict_set in Hd as [?|[= -> ->]]; [by left |].
           right. left.
        -- split; [right; by right | done].
      * intros k [->|Hk]%elem_of_cons Hkeep; [| by apply H2].
        apply heuristic_filter_keeps_keys, dict_set_has_key.
    + destruct (IH acc Hacc) as [H1 H2]. split.
      * intros k v H. destruct (H1 k v H) as ([Hd|Hm] & ? & ?).
        -- split; [by left | done].
        -- split; [right; by right | done].
      * intros k [->|Hk]%elem_of_cons Hkeep; [congruence | by apply H2].
Qed.

(** The second loop returns the first key of greatest value. *)
Lemma heuristic_pick_spec d :
  forall value best,
    value <> PosInf ->
    exists top,
      ext_ltb top value = false
      /\ (forall k v, (k, v) ∈ d -> ext_ltb top (Fin v) = false)
      /\ ((heuristic_pick d value best = best /\ top = value)
          \/ exists k v,
              heuristic_pick d value best = Some k
              /\ (k, v) ∈ d /\ top = Fin v).
Proof.
  induction d as [|[k0 v0] d IH]; intros value best Hv; simpl.
  - exists value. split; [apply ext_ltb_irrefl |].
    split; [by intros k v ?%elem_of_nil | by left].
  - destruct (ext_ltb value (Fin v0)) eqn:Hlt.
    + destruct (IH (Fin v0) (Some k0)) as (top & Hge & Hall & Hsel); [done |].
      exists top.
      split; [apply ext_lt_le; eapply ext_lt_le_trans; eauto |]. split.
      * intros k v [[= -> ->]|H]%elem_of_cons; [done | by eapply Hall].
      * right. destruct Hsel as [[-> ->]|(k & v & -> & Hin & ->)].
        -- exists k0, v0. split; [done |]. split; [left | done].
        -- exists k, v. split; [done |]. split; [by right | done].
    + destruct (IH value best Hv) as (top & Hge & Hall & Hsel).
      exists top. split; [done |]. split.
      * intros k v [[= -> ->]|H]%elem_of_cons; [| by eapply Hall].
        eapply ext_le_trans; eauto.
      * destruct Hsel as [[-> ->]|(k & v & -> & Hin & ->)]; [by left | right].
        exists k, v. split; [done |]. split; [by right | done].
Qed.

(** X13: what [compute_heuristic] suggests.  Where the player has a legal
    move, the function returns a bare move: a legal move that passes both of
    its tests and whose [util_diff] no other such move exceeds, or [None]
    when no legal move passes. *)
Theorem compute_heuristic_suggests_best b color :
  get_possible_moves b color <> [] ->
  exists best_move,
    compute_heuristic b color = HeuristicMove best_move
    /\ match best_move with
       | Some m =>
           m ∈ get_possible_moves b color
           /\ heuristic_keeps b color m = true
           /\ forall m', m' ∈ get_possible_moves b color ->
                         heuristic_keeps b color m' = true ->
                         util_diff b color m' <= util_diff b color m
       | None =>
           forall m', m' ∈ get_possible_moves b color ->
                      heuristic_keeps b color m' = false
       end.
Proof.
  intros Hne. unfold compute_heuristic.
  destruct (get_possible_moves b color) as [|m0 ms] eqn:Em; [done |].
  rewrite <- Em. clear Hne.
  set (d := heuristic_filter b color (opponent_of color)
              (get_possible_moves b color) []).
  destruct (heuristic_filter_spec b color (get_possible_moves b color) [])
    as [Hd1 Hd2]; [by intros k v ?%elem_of_nil |].
  fold d in Hd1, Hd2.
  destruct (heuristic_pick_spec d NegInf None) as (top & _ & Hall & Hsel);
    [done |].
  eexists. split; [reflexivity |].
  destruct Hsel as [[-> ->]|(k & v & -> & Hin & ->)].
  - intros m' Hm'. destruct (heuristic_keeps b color m') eqn:Ek; [| done].
    pose proof (Hd2 m' Hm' Ek) as Hkey.
    apply list_elem_of_fmap in Hkey as ([k v] & _ & Hin).
    by specialize (Hall _ _ Hin).
  - destruct (Hd1 k v Hin) as ([[]%elem_of_nil|Hk] & Hkeep & ->).
    split; [done |]. split; [done |].
    intros m' Hm' Ek.
    pose proof (Hd2 m' Hm' Ek) as Hkey.
    apply list_elem_of_fmap in Hkey as ([k' v'] & Heq & Hin').
    simpl in Heq. subst k'.
    destruct (Hd1 _ _ Hin') as (_ & _ & ->).
    specialize (Hall _ _ Hin'). simpl in Hall |- *.
    apply Z.ltb_ge in Hall. lia.
Qed.

(** The tests of [compute_heuristic] in words: a move is kept when it does
    not raise the magnitude of the disk differential, and, if it leaves the
    opponent without a move, does not lower it either. *)
Lemma heuristic_keeps_spec b color m :
  heuristic_keeps b color m = true
  <-> 0 <= util_diff b color m
      /\ (get_possible_moves (play_move b color (fst m) (snd m))
            (opponent_of color) = [] ->
          util_diff b color m = 0).
Proof.
  unfold heuristic_keeps, util_diff.
  rewrite andb_true_iff, !negb_true_iff, andb_false_iff, Z.eqb_neq, !Z.ltb_ge.
  destruct (get_possible_moves _ (opponent_of color)) as [|x l]; simpl.
  - split; [intros [[?|?] ?]; [lia | split; [lia | intros; lia]] |].
    intros [? H]. specialize (H eq_refl). split; [right; lia | lia].
  - split; [intros [_ ?]; split; [lia | done] |].
    intros [? _]. split; [left; lia | lia].
Qed.

End HeuristicFacts.

(** ** Depth limit 1 *)

Section DepthOne.
Context {rules : OthelloShared}.

Lemma compute_utility_opponent b color :
  compute_utility b (opponent_of color) = - compute_utility b color.
Proof.
  unfold compute_utility, opponent_of.
  destruct (Z.eqb_spec color 1) as [->|Hne]; simpl; lia.
Qed.

(** The children of a root searched with limit 1 are leaves: they return
    their utility for the opponent and touch nothing. *)
Lemma leaf_children fuel nb color caching ordering alpha beta (c : cache) :
  minimax_min_node fuel nb color (1 - 1) caching c
  = Ret ((None, Fin (compute_utility nb color)), c)
  /\ alphabeta_min_node fuel nb color alpha beta (1 - 1) caching ordering c
    = Ret ((None, Fin (compute_utility nb color)), c).
Proof.
  assert (Ht : terminal (get_possible_moves nb color) (1 - 1) = true)
    by (by destruct (get_possible_moves nb color)).
  by rewrite minimax_min_node_terminal, alphabeta_min_node_terminal.
Qed.

(** The values a root with limit 1 reads: the utility of each successor for
    the opponent, if the cache holds nothing else for the successors. *)
Lemma child_values_leaves fuel b color caching (all ms : list move) :
  forall (c : cache) vals c',
    (forall m, m ∈ ms -> m ∈ all) ->
    (forall m r, m ∈ all ->
       c !! play_move b color (fst m) (snd m) = Some r ->
       snd r = Fin (compute_utility (play_move b color (fst m) (snd m))
                      (opponent_of color))) ->
    child_values
      (fun nb c => minimax_min_node fuel nb (opponent_of color) (1 - 1) caching c)
      b color ms c = Ret (vals, c') ->
    vals = (fun m => Fin (compute_utility
                            (play_move b color (fst m) (snd m))
                            (opponent_of color))) <$> ms.
Proof.
  induction ms as [|m ms IH]; intros c vals c' Hall Hc; simpl.
  - by intros [= <- _].
  - unfold cached_or.
    destruct (c !! play_move b color (fst m) (snd m)) as [[nm nv]|] eqn:E; simpl.
    + destruct (child_values _ b color ms c) as [[vs c2]| |] eqn:Ev; simpl;
        try discriminate.
      intros [= <- _].
      rewrite (IH _ _ _ (fun m' H => Hall m' (list_elem_of_further _ _ _ H))
                 Hc Ev).
      f_equal. apply (Hc m (nm, nv)); [apply Hall; left | done].
    + rewrite (proj1 (leaf_children fuel _ (opponent_of color) caching 0
                        NegInf PosInf c)).
      simpl.
      destruct (child_values _ b color ms _) as [[vs c2]| |] eqn:Ev; simpl;
        try discriminate.
      intros [= <- _].
      f_equal.
      eapply (IH _ _ _ (fun m' H => Hall m' (list_elem_of_further _ _ _ H)));
        [| exact Ev].
      intros m' r Hm'. rewrite lookup_insert. case_decide as Hk.
      * intros [= <-]. simpl. by rewrite Hk.
      * by apply Hc.
Qed.

(** X14: what a search of depth 1 maximises.  With depth limit 1 the children
    of the root are evaluated as leaves for the opponent, so the root's
    greatest child value is the opponent's greatest utility: the minimax
    engine answers with a legal move whose successor has the least utility
    for the mover among all legal moves. *)
Theorem depth_one_search_minimises_own_utility b color caching
    (cached : cache) :
  leaves_cached b color cached ->
  get_possible_moves b color <> [] ->
  exists m c',
    select_move_minimax 1 b color 1 caching cached
    = Ret (Some (MoveTuple m), c')
    /\ m ∈ get_possible_moves b color
    /\ forall m', m' ∈ get_possible_moves b color ->
         compute_utility (play_move b color (fst m) (snd m)) color
         <= compute_utility (play_move b color (fst m') (snd m')) color.
Proof.
  intros Hleaves Hne.
  assert (Ht : terminal (get_possible_moves b color) 1 = false)
    by (by destruct (get_possible_moves b color)).
  destruct (minimax_max_loop_total
              (fun nb c => minimax_min_node 0 nb (opponent_of color) (1 - 1)
                             caching c)
              b color (get_possible_moves b color)) with
    (value := NegInf) (best := @None pymove) (cached := cached)
    as (bm & v & c' & Hloop & _).
  { intros m c _.
    rewrite (proj1 (leaf_children 0 _ (opponent_of color) caching 0
                      NegInf PosInf c)).
    by eexists _, _. }
  unfold select_move_minimax. rewrite minimax_max_node_step by done.
  rewrite Hloop. simpl.
  apply minimax_max_loop_first in Hloop as (vals & Hvals & Hall & _ & Hsel).
  apply (child_values_leaves 0 b color caching (get_possible_moves b color))
    in Hvals; [| done | done].
  subst vals.
  destruct Hsel as [[-> ->]|(k & m & Hk & Hv & -> & _ & _)].
  - destruct (get_possible_moves b color) as [|m0 ms]; [done |].
    specialize (Hall _ ltac:(left)). done.
  - exists m, c'. split; [done |].
    split; [by eapply list_elem_of_lookup_2 |].
    apply list_lookup_fmap_Some in Hv as (m2 & -> & Hm2).
    assert (m2 = m) as -> by (injection (eq_trans (eq_sym Hm2) Hk); done).
    intros m' Hm'.
    specialize (Hall (Fin (compute_utility
                             (play_move b color (fst m') (snd m'))
                             (opponent_of color)))).
    rewrite !compute_utility_opponent in Hall. simpl in Hall.
    apply Z.ltb_ge in Hall; [lia |].
    apply list_elem_of_fmap. exists m'.
    split; [by rewrite compute_utility_opponent | done].
Qed.

(** A root loop of alpha-beta whose children do not look at the window is
    the root loop of minimax, as long as the values are integers. *)
Lemma alphabeta_max_loop_no_cut childM childA b color moves :
  (forall nb alpha beta c, childA nb alpha beta c = childM nb c) ->
  finite_node childM ->
  forall alpha value best (c : cache),
    cache_finite c -> value <> PosInf ->
    alphabeta_max_loop childA b color moves alpha PosInf value best c
    = minimax_max_loop childM b color moves value best c.
Proof.
  intros Hsame Hf. induction moves as [|mv moves IH];
    intros alpha value best c Hc Hv; simpl; [done |].
  destruct (play_move_py b color (index0 mv) (index1 mv)) as [nb| |]; simpl;
    try done.
  rewrite (cached_or_ext (fun nb c => childA nb alpha PosInf c) childM)
    by (intros; apply Hsame).
  destruct (cached_or childM nb c) as [[[nm nv] c1]| |] eqn:Ec; simpl; try done.
  destruct (cached_or_finite _ _ _ _ _ Hf Hc Ec) as [[z Hz] Hc1].
  simpl in Hz. subst nv.
  destruct (ext_ltb value (Fin z)); simpl.
  - by apply IH.
  - destruct value; try done; simpl; by apply IH.
Qed.

(** X15: at depth limit 1 pruning never happens.  On a cache that holds
    integers, alpha-beta with ordering off and minimax return the same
    answer and leave the same cache. *)
Theorem depth_one_engines_coincide fuel b color caching (cached : cache) :
  cache_finite cached ->
  select_move_alphabeta fuel b color 1 caching 0 cached
  = select_move_minimax fuel b color 1 caching cached.
Proof.
  intros Hc. unfold select_move_alphabeta, select_move_minimax.
  destruct (terminal (get_possible_moves b color) 1) eqn:Ht.
  - by rewrite alphabeta_max_node_terminal, minimax_max_node_terminal.
  - destruct fuel as [|fuel]; [simpl; by rewrite Ht |].
    rewrite alphabeta_max_node_step, minimax_max_node_step by done.
    unfold ordering_block. simpl Z.eqb. cbv iota.
    rewrite (alphabeta_max_loop_no_cut
               (fun nb c => minimax_min_node fuel nb (opponent_of color)
                              (1 - 1) caching c)); try done.
    + intros nb alpha beta c.
      by rewrite (proj1 (leaf_children fuel nb (opponent_of color) caching 0
                           alpha beta c)),
                 (proj2 (leaf_children fuel nb (opponent_of color) caching 0
                           alpha beta c)).
    + apply (nodes_finite fuel (opponent_of color) (1 - 1) caching 0).
Qed.

End DepthOne.

(** ** Any window *)

Section Window.
Context {rules : OthelloShared}.
Variables (valid : board -> Prop) (measure : board -> nat).
Hypothesis fills : cell_filling valid measure.

(** X16: alpha-beta is sound for every window.  Where no lookup can hit, a
    node of alpha-beta (ordering off) called with [alpha < beta] returns a
    value on the same side of the window as the minimax value of the node:
    at most [alpha] if that is at most [alpha], at least [beta] if that is
    at least [beta], and the minimax value itself, with the minimax move,
    if it lies strictly between them.  For maximize and minimize nodes. *)
Theorem alphabeta_window_sound fuel b color limit caching alpha beta
    (cm ca : cache) :
  enough valid measure fuel b limit ->
  NoDup (subtree fuel b color limit) ->
  unseen cm (subtree fuel b color limit) ->
  unseen ca (subtree fuel b color limit) ->
  ext_lt alpha beta ->
  (exists bm v cm' am av ca',
      minimax_max_node fuel b color limit caching cm = Ret ((bm, v), cm')
      /\ alphabeta_max_node fuel b color alpha beta limit caching 0 ca
        = Ret ((am, av), ca')
      /\ (ext_le v alpha -> ext_le av alpha)
      /\ (ext_le beta v -> ext_le beta av)
      /\ (ext_lt alpha v -> ext_lt v beta -> av = v /\ am = bm))
  /\ (exists bm v cm' am av ca',
      minimax_min_node fuel b color limit caching cm = Ret ((bm, v), cm')
      /\ alphabeta_min_node fuel b color alpha beta limit caching 0 ca
        = Ret ((am, av), ca')
      /\ (ext_le v alpha -> ext_le av alpha)
      /\ (ext_le beta v -> ext_le beta av)
      /\ (ext_lt alpha v -> ext_lt v beta -> av = v /\ am = bm)).
Proof.
  intros He Hnd Hcm Hca Hab.
  destruct (nodes_total valid measure fills fuel b color limit caching cm He)
    as ((bm & v & cm' & Hmax & _) & (bm' & v' & cm'' & Hmin & _) & _).
  destruct (nodes_agree fuel color limit caching) as (_ & _ & Hamax & Hamin).
  destruct (Hamax b cm ca _ _ Hnd Hcm Hca Hmax alpha beta Hab)
    as (am & av & ca' & Ha & _ & (W1 & W2 & W3) & Hm).
  destruct (Hamin b cm ca _ _ Hnd Hcm Hca Hmin alpha beta Hab)
    as (am' & av' & ca'' & Ha' & _ & (W1' & W2' & W3') & Hm').
  simpl in *. unfold ext_le, ext_lt, ext_leb.
  split.
  - exists bm, v, cm', am, av, ca'. split; [done |]. split; [done |].
    split; [intros H%negb_true_iff; by rewrite W1 |].
    split; [intros H%negb_true_iff; by rewrite W2 |].
    intros H1 H2. split; [by apply W3 | by apply Hm].
  - exists bm', v', cm'', am', av', ca''. split; [done |]. split; [done |].
    split; [intros H%negb_true_iff; by rewrite W1' |].
    split; [intros H%negb_true_iff; by rewrite W2' |].
    intros H1 H2. split; [by apply W3' | by apply Hm'].
Qed.

End Window.

(** ** The ordering step *)

Section Sorting.
Context {rules : OthelloShared}.

Lemma insert_desc_perm x l : insert_desc x l ≡ₚ x :: l.
Proof.
  induction l as [|y l IH]; simpl; [done |].
  destruct (snd x <? snd y); [| done].
  rewrite IH. apply Permutation_swap.
Qed.

Lemma sorted_desc_perm l : sorted_desc l ≡ₚ l.
Proof.
  induction l as [|x l IH]; [done |].
  unfold sorted_desc in *. simpl. rewrite insert_desc_perm. by f_equiv.
Qed.

Lemma insert_desc_sorted x l :
  StronglySorted (fun a b : move * Z => snd b <= snd a) l ->
  StronglySorted (fun a b : move * Z => snd b <= snd a) (insert_desc x l).
Proof.
  induction 1 as [|y l Hs IH Hy]; simpl.
  - repeat constructor.
  - destruct (Z.ltb_spec (snd x) (snd y)).
    + constructor; [done |].
      apply Forall_forall. intros z Hz.
      rewrite insert_desc_perm in Hz.
      apply elem_of_cons in Hz as [->|Hz]; [lia |].
      rewrite Forall_forall in Hy. by apply Hy.
    + constructor; [by constructor |].
      constructor; [done |].
      eapply Forall_impl; [exact Hy |]. simpl. intros; lia.
Qed.

Lemma sorted_desc_sorted l :
  StronglySorted (fun a b : move * Z => snd b <= snd a) (sorted_desc l).
Proof.
  induction l as [|x l IH]; [constructor |].
  unfold sorted_desc in *. simpl. by apply insert_desc_sorted.
Qed.

Lemma insert_desc_stable u x l :
  filter (fun e : move * Z => snd e = u) (insert_desc x l)
  = filter (fun e : move * Z => snd e = u) (x :: l).
Proof.
  induction l as [|y l IH]; simpl; [done |].
  destruct (Z.ltb_spec (snd x) (snd y)); [| done].
  rewrite !filter_cons in *.
  destruct (decide (snd y = u)), (decide (snd x = u)); try lia;
    by rewrite IH.
Qed.

Lemma sorted_desc_stable u l :
  filter (fun e : move * Z => snd e = u) (sorted_desc l)
  = filter (fun e : move * Z => snd e = u) l.
Proof.
  induction l as [|x l IH]; [done |].
  unfold sorted_desc in *. simpl. rewrite insert_desc_stable.
  rewrite !filter_cons. by rewrite IH.
Qed.

(** X17: what the ordering step builds.  With [ordering] on, the list the
    loop then walks holds one entry [[(i, j), utility]] per legal move, the
    utility being that of the move's successor for the mover; the entries
    come by descending utility, and entries of equal utility in the order of
    [get_possible_moves]. *)
Theorem ordering_block_sorts b color ordering moves :
  ordering <> 0 ->
  exists entries,
    ordering_block b color ordering moves
    = map (fun e => ScoredEntry (fst e) (snd e)) entries
    /\ entries ≡ₚ scored_moves b color moves
    /\ StronglySorted (fun a b : move * Z => snd b <= snd a) entries
    /\ forall u,
        filter (fun e : move * Z => snd e = u) entries
        = filter (fun e : move * Z => snd e = u) (scored_moves b color moves).
Proof.
  intros Ho%Z.eqb_neq.
  exists (sorted_desc (scored_moves b color moves)).
  split; [unfold ordering_block; by rewrite Ho |].
  split; [apply sorted_desc_perm |].
  split; [apply sorted_desc_sorted | intros; apply sorted_desc_stable].
Qed.

End Sorting.

(** ** Minimax against the game tree *)

Section Tree.
Context {rules : OthelloShared}.

Lemma minimax_max_loop_exact sub tv child b color ms :
  minimax_fresh sub child -> minimax_exact sub tv child ->
  forall value best (cached : cache) bm v cached',
    NoDup (kids sub b color ms) -> unseen cached (kids sub b color ms) ->
    minimax_max_loop child b color (map MoveTuple ms) value best cached
    = Ret ((bm, v), cached') ->
    v = foldl (fun acc m =>
                 ext_max acc (tv (play_move b color (fst m) (snd m))))
          value ms.
Proof.
  intros Hfresh Hexact.
  induction ms as [|m ms IH]; intros value best cached bm v cached' Hnd Hun.
  - simpl. by intros [= _ <- _].
  - remember (kids sub b color (m :: ms)) as K eqn:HK.
    rewrite kids_cons in HK. simpl.
    set (nb := play_move b color (fst m) (snd m)) in *. subst K.
    rewrite cached_or_miss by (apply Hun; left).
    destruct (child nb cached) as [[[nm nv] c1]| |] eqn:Ec; simpl;
      try discriminate.
    assert (Hsub : NoDup (sub nb)).
    { apply NoDup_app in Hnd as (Hnd & _). by apply NoDup_cons in Hnd as [_ ?]. }
    assert (Hcs : unseen cached (sub nb)).
    { intros x Hx. apply Hun, elem_of_app. left. by right. }
    destruct (Hfresh nb cached (nm, nv) c1 Hsub Hcs Ec) as [_ Hg].
    pose proof (Hexact nb cached (nm, nv) c1 Hsub Hcs Ec) as Hv.
    simpl in Hv. subst nv.
    assert (Hnd' : NoDup (kids sub b color ms))
      by (by apply NoDup_app in Hnd as (_ & _ & ?)).
    assert (Hun' : unseen (<[nb := (nm, tv nb)]> c1) (kids sub b color ms))
      by (eapply (unseen_after_child cached c1); eauto).
    unfold ext_max at 2.
    destruct (ext_ltb value (tv nb)); intros Hloop;
      eapply IH; eauto.
Qed.

Lemma minimax_min_loop_exact sub tv child b color ms :
  minimax_fresh sub child -> minimax_exact sub tv child ->
  forall value best (cached : cache) bm v cached',
    NoDup (kids sub b color ms) -> unseen cached (kids sub b color ms) ->
    minimax_min_loop child b color (map MoveTuple ms) value best cached
    = Ret ((bm, v), cached') ->
    v = foldl (fun acc m =>
                 ext_min acc (tv (play_move b color (fst m) (snd m))))
          value ms.
Proof.
  intros Hfresh Hexact.
  induction ms as [|m ms IH]; intros value best cached bm v cached' Hnd Hun.
  - simpl. by intros [= _ <- _].
  - remember (kids sub b color (m :: ms)) as K eqn:HK.
    rewrite kids_cons in HK. simpl.
    set (nb := play_move b color (fst m) (snd m)) in *. subst K.
    rewrite cached_or_miss by (apply Hun; left).
    destruct (child nb cached) as [[[nm nv] c1]| |] eqn:Ec; simpl;
      try discriminate.
    assert (Hsub : NoDup (sub nb)).
    { apply NoDup_app in Hnd as (Hnd & _). by apply NoDup_cons in Hnd as [_ ?]. }
    assert (Hcs : unseen cached (sub nb)).
    { intros x Hx. apply Hun, elem_of_app. left. by right. }
    destruct (Hfresh nb cached (nm, nv) c1 Hsub Hcs Ec) as [_ Hg].
    pose proof (Hexact nb cached (nm, nv) c1 Hsub Hcs Ec) as Hv.
    simpl in Hv. subst nv.
    assert (Hnd' : NoDup (kids sub b color ms))
      by (by apply NoDup_app in Hnd as (_ & _ & ?)).
    assert (Hun' : unseen (<[nb := (nm, tv nb)]> c1) (kids sub b color ms))
      by (eapply (unseen_after_child cached c1); eauto).
    unfold ext_min at 2.
    destruct (ext_ltb (tv nb) value); intros Hloop;
      eapply IH; eauto.
Qed.

Lemma nodes_exact fuel :
  forall color limit caching,
    minimax_exact (fun b => subtree fuel b color limit)
      (fun b => tree_value fuel true b color limit)
      (fun b c => minimax_max_node fuel b color limit caching c)
    /\ minimax_exact (fun b => subtree fuel b color limit)
        (fun b => tree_value fuel false b color limit)
        (fun b c => minimax_min_node fuel b color limit caching c).
Proof.
  induction fuel as [|fuel IH]; intros color limit caching.
  - split; intros nb c r c' _ _;
      destruct (terminal (get_possible_moves nb color) limit) eqn:Ht;
      simpl; rewrite Ht; try discriminate; by intros [= <- _].
  - destruct (IH (opponent_of color) (limit - 1) caching) as [IHmax IHmin].
    destruct (nodes_agree fuel (opponent_of color) (limit - 1) caching)
      as (Hfmax & Hfmin & _).
    split; intros nb c [bm v] c';
      destruct (terminal (get_possible_moves nb color) limit) eqn:Ht.
    all: try (intros _ _; simpl; rewrite Ht; by intros [= _ <- _]).
    all: rewrite (subtree_step _ _ _ _ Ht); intros Hnd Hun;
      simpl; rewrite Ht; intros Hloop.
    + eapply (minimax_max_loop_exact _ _ _ _ _ _ Hfmin IHmin); eauto.
    + eapply (minimax_min_loop_exact _ _ _ _ _ _ Hfmax IHmax); eauto.
Qed.

Section WithFuel.
Variables (valid : board -> Prop) (measure : board -> nat).
Hypothesis fills : cell_filling valid measure.

(** X18: minimax computes the minimax value.  Where no lookup can hit, a
    maximize node returns the greatest, and a minimize node the least, of
    the values of its children in the game tree, where a node at which the
    search stops is worth its utility for the player to move there. *)
Theorem minimax_computes_tree_value fuel b color limit caching
    (cached : cache) :
  enough valid measure fuel b limit ->
  NoDup (subtree fuel b color limit) ->
  unseen cached (subtree fuel b color limit) ->
  (exists bm c',
      minimax_max_node fuel b color limit caching cached
      = Ret ((bm, tree_value fuel true b color limit), c'))
  /\ (exists bm c',
      minimax_min_node fuel b color limit caching cached
      = Ret ((bm, tree_value fuel false b color limit), c')).
Proof.
  intros He Hnd Hun.
  destruct (nodes_total valid measure fills fuel b color limit caching
              cached He)
    as ((bm & v & c' & Hmax & _) & (bm' & v' & c'' & Hmin & _) & _).
  destruct (nodes_exact fuel color limit caching) as [Hemax Hemin].
  pose proof (Hemax b cached _ _ Hnd Hun Hmax) as Hv.
  pose proof (Hemin b cached _ _ Hnd Hun Hmin) as Hv'.
  simpl in Hv, Hv'. subst v v'. split; by eexists _, _.
Qed.

End WithFuel.

End Tree.

Section Frame.
Context {rules : OthelloShared}.
Variables (valid : board -> Prop) (measure : board -> nat).
Hypothesis fills : cell_filling valid measure.

(** X1: the search only adds to the cache.  Every entry the dictionary
    holds when [select_move] is called is still there, unchanged, when it
    returns: nothing is evicted, nothing overwritten. *)
Theorem search_only_adds_to_cache fuel b color limit caching (cached : cache) :
  enough valid measure fuel b limit ->
  (exists bm c',
      select_move_minimax fuel b color limit caching cached = Ret (bm, c')
      /\ forall k r, cached !! k = Some r -> c' !! k = Some r)
  /\ (exists bm c',
      select_move_alphabeta fuel b color limit caching 0 cached = Ret (bm, c')
      /\ forall k r, cached !! k = Some r -> c' !! k = Some r).
Proof.
  intros He.
  destruct (nodes_total valid measure fills fuel b color limit caching
              cached He)
    as ((bm & v & c' & Hmax & _) & _ & Hab & _).
  destruct (Hab NegInf PosInf) as (bm' & v' & c'' & Hmax' & _).
  destruct (nodes_grow fuel color limit caching 0) as (Hg & _ & Hga & _).
  pose proof (Hg b cached _ _ Hmax) as Hsub.
  pose proof (Hga NegInf PosInf b cached _ _ Hmax') as Hsub'.
  unfold select_move_minimax, select_move_alphabeta.
  rewrite Hmax, Hmax'. simpl.
  split; eexists _, _; (split; [reflexivity |]); intros k r Hk;
    eapply lookup_weaken; eauto.
Qed.

End Frame.

(** ** The properties at work on the game *)

Lemma cache_finite_empty `{OthelloShared} : cache_finite (∅ : cache).
Proof. intros k r Hk. by rewrite lookup_empty in Hk. Qed.

Lemma unseen_empty `{OthelloShared} boards : unseen (∅ : cache) boards.
Proof. intros x _. apply lookup_empty. Qed.

Lemma leaves_cached_empty `{OthelloShared} b color :
  leaves_cached b color (∅ : cache).
Proof. intros m r _ Hk. by rewrite lookup_empty in Hk. Qed.

Lemma opening_tree_nodup :
  NoDup (subtree (rules := othello_rules) 2 Othello.start4 1 2).
Proof.
  apply (bool_decide_unpack
           (NoDup (subtree (rules := othello_rules) 2 Othello.start4 1 2))).
  vm_compute. exact I.
Qed.

Lemma opening_enough fuel limit :
  0 <= limit <= Z.of_nat fuel ->
  enough (rules := othello_rules) (fun b => Othello.square b = true)
    Othello.empties fuel Othello.start4 limit.
Proof. intros H. by left. Qed.

Lemma search_only_adds_to_cache_opening :
  enough (rules := othello_rules) (fun b => Othello.square b = true)
    Othello.empties 2 Othello.start4 2
  /\ exists bm c',
      select_move_minimax 2 Othello.start4 1 2 0 cached_after_depth1
      = Ret (bm, c')
      /\ forall k r, cached_after_depth1 !! k = Some r -> c' !! k = Some r.
Proof.
  assert (He := opening_enough 2 2 ltac:(lia)).
  split; [exact He |].
  exact (proj1 (search_only_adds_to_cache (rules := othello_rules) _ _
                  othello_cell_filling 2 Othello.start4 1 2 0
                  cached_after_depth1 He)).
Defined.

Lemma minimax_search_repeats_late :
  minimax_max_node 1 Othello.late4 2 1 0 ∅
  = Ret ((Some (MoveTuple (0, 0)), Fin 2), cached_after_depth1)
  /\ minimax_max_node 5 Othello.late4 2 5 1 cached_after_depth1
    = Ret ((Some (MoveTuple (0, 0)), Fin 2), cached_after_depth1).
Proof.
  assert (H : minimax_max_node 1 Othello.late4 2 1 0 ∅
              = Ret ((Some (MoveTuple (0, 0)), Fin 2), cached_after_depth1))
    by (vm_compute; reflexivity).
  split; [exact H |].
  exact (proj1 (minimax_search_repeats (rules := othello_rules)
                  1 4 Othello.late4 2 1 5 0 1 ∅ cached_after_depth1 _ H
                  ltac:(lia) ltac:(lia))).
Defined.

Lemma alphabeta_search_repeats_late :
  alphabeta_max_node 1 Othello.late4 2 NegInf PosInf 1 0 0 ∅
  = Ret ((Some (MoveTuple (0, 0)), Fin 2), cached_after_depth1)
  /\ alphabeta_max_node 5 Othello.late4 2 NegInf PosInf 5 1 0
      cached_after_depth1
    = Ret ((Some (MoveTuple (0, 0)), Fin 2), cached_after_depth1).
Proof.
  assert (H : alphabeta_max_node 1 Othello.late4 2 NegInf PosInf 1 0 0 ∅
              = Ret ((Some (MoveTuple (0, 0)), Fin 2), cached_after_depth1))
    by (vm_compute; reflexivity).
  split; [exact H |].
  exact (proj1 (alphabeta_search_repeats (rules := othello_rules)
                  1 4 Othello.late4 2 1 5 0 1 ∅ cached_after_depth1 _ H
                  ltac:(lia) ltac:(lia))).
Defined.

Lemma alphabeta_after_minimax_late :
  minimax_max_node 1 Othello.late4 2 1 0 ∅
  = Ret ((Some (MoveTuple (0, 0)), Fin 2), cached_after_depth1)
  /\ select_move_alphabeta 5 Othello.late4 2 5 1 0 cached_after_depth1
    = Ret (Some (MoveTuple (0, 0)), cached_after_depth1).
Proof.
  assert (H : minimax_max_node 1 Othello.late4 2 1 0 ∅
              = Ret ((Some (MoveTuple (0, 0)), Fin 2), cached_after_depth1))
    by (vm_compute; reflexivity).
  split; [exact H |].
  exact (proj2 (alphabeta_after_minimax (rules := othello_rules)
                  1 4 Othello.late4 2 1 5 0 1 ∅ cached_after_depth1 _ H
                  ltac:(lia) ltac:(lia))).
Defined.

Lemma search_values_are_integers_opening :
  cache_finite (∅ : cache)
  /\ exists bm z c',
      minimax_max_node 2 Othello.start4 1 2 0 ∅ = Ret ((bm, Fin z), c')
      /\ cache_finite c'.
Proof.
  split; [apply cache_finite_empty |].
  exact (proj1 (search_values_are_integers (rules := othello_rules) _ _
                  othello_cell_filling 2 Othello.start4 1 2 0 NegInf PosInf ∅
                  cache_finite_empty (opening_enough 2 2 ltac:(lia)))).
Defined.

Lemma select_move_never_passes_opening :
  get_possible_moves Othello.start4 1 <> []
  /\ exists m c',
      select_move_minimax 2 Othello.start4 1 2 0 ∅
      = Ret (Some (MoveTuple m), c')
      /\ m ∈ get_possible_moves Othello.start4 1.
Proof.
  assert (Hne : get_possible_moves Othello.start4 1 <> []) by discriminate.
  split; [exact Hne |].
  exact (proj1 (select_move_never_passes (rules := othello_rules) _ _
                  othello_cell_filling 2 Othello.start4 1 2 0 ∅
                  cache_finite_empty (opening_enough 2 2 ltac:(lia)) Hne
                  ltac:(lia))).
Defined.

Lemma forced_move_is_played_late :
  get_possible_moves Othello.late4 1 = [(2, 3)]
  /\ exists c',
      select_move_minimax 3 Othello.late4 1 3 0 ∅
      = Ret (Some (MoveTuple (2, 3)), c').
Proof.
  split; [reflexivity |].
  refine (proj1 (forced_move_is_played (rules := othello_rules) _ _
                   othello_cell_filling 3 Othello.late4 1 3 0 ∅ (2, 3)
                   cache_finite_empty _ eq_refl ltac:(lia))).
  left. lia.
Defined.

Lemma run_ai_turn_sends_legal_move_opening :
  get_possible_moves Othello.start4 1 <> []
  /\ exists i j c',
      run_ai_turn 2 1 2 1 0 0 Othello.start4 ∅ = Ret ((PyInt i, PyInt j), c')
      /\ (i, j) ∈ get_possible_moves Othello.start4 1.
Proof.
  assert (Hne : get_possible_moves Othello.start4 1 <> []) by discriminate.
  split; [exact Hne |].
  exact (run_ai_turn_sends_legal_move (rules := othello_rules) _ _
           othello_cell_filling 2 1 2 1 0 0 Othello.start4 ∅
           (or_introl eq_refl) cache_finite_empty
           (opening_enough 2 2 ltac:(lia)) Hne ltac:(lia)).
Defined.

Lemma run_ai_turn_cannot_pass_full_board :
  get_possible_moves Othello.full4 1 = []
  /\ run_ai_turn 3 1 3 1 0 0 Othello.full4 ∅ = TypeError
  /\ run_ai_turn 3 1 0 1 0 0 Othello.start4 ∅ = TypeError.
Proof.
  split; [reflexivity |]. split.
  - exact (run_ai_turn_cannot_pass (rules := othello_rules)
             3 1 3 1 0 0 Othello.full4 ∅ (or_introl eq_refl)).
  - exact (run_ai_turn_cannot_pass (rules := othello_rules)
             3 1 0 1 0 0 Othello.start4 ∅ (or_intror eq_refl)).
Defined.

Lemma ordering_on_always_raises_opening :
  get_possible_moves Othello.start4 1 <> []
  /\ select_move_alphabeta 3 Othello.start4 1 2 0 1 ∅ = TypeError.
Proof.
  assert (Hne : get_possible_moves Othello.start4 1 <> []) by discriminate.
  split; [exact Hne |].
  exact (proj1 (ordering_on_always_raises (rules := othello_rules)
                  2 1 2 0 0 1 Othello.start4 ∅ ltac:(lia) Hne ltac:(lia))).
Defined.

Lemma depth_limited_search_returns_opening :
  0 <= 2
  /\ exists bm c',
      select_move_minimax (Z.to_nat 2) Othello.start4 1 2 0 ∅ = Ret (bm, c')
      /\ pass_or_legal Othello.start4 1 bm.
Proof.
  split; [lia |].
  exact (proj1 (depth_limited_search_returns (rules := othello_rules)
                  Othello.start4 1 2 0 ∅ ltac:(lia))).
Defined.

Lemma compute_heuristic_suggests_best_late :
  get_possible_moves Othello.late4 2 <> []
  /\ exists best_move,
      compute_heuristic Othello.late4 2 = HeuristicMove best_move
      /\ match best_move with
         | Some m =>
             m ∈ get_possible_moves Othello.late4 2
             /\ heuristic_keeps Othello.late4 2 m = true
             /\ forall m', m' ∈ get_possible_moves Othello.late4 2 ->
                           heuristic_keeps Othello.late4 2 m' = true ->
                           util_diff Othello.late4 2 m'
                           <= util_diff Othello.late4 2 m
         | None =>
             forall m', m' ∈ get_possible_moves Othello.late4 2 ->
                        heuristic_keeps Othello.late4 2 m' = false
         end.
Proof.
  assert (Hne : get_possible_moves Othello.late4 2 <> []) by discriminate.
  split; [exact Hne |].
  exact (compute_heuristic_suggests_best (rules := othello_rules)
           Othello.late4 2 Hne).
Defined.

Lemma depth_one_search_minimises_own_utility_opening :
  leaves_cached Othello.start4 1 (∅ : cache)
  /\ exists m c',
      select_move_minimax 1 Othello.start4 1 1 0 ∅
      = Ret (Some (MoveTuple m), c')
      /\ m ∈ get_possible_moves Othello.start4 1
      /\ forall m', m' ∈ get_possible_moves Othello.start4 1 ->
           compute_utility
             (play_move Othello.start4 1 (fst m) (snd m)) 1
           <= compute_utility
                (play_move Othello.start4 1 (fst m') (snd m')) 1.
Proof.
  split; [apply leaves_cached_empty |].
  refine (depth_one_search_minimises_own_utility (rules := othello_rules)
            Othello.start4 1 0 ∅ (leaves_cached_empty _ _) _).
  discriminate.
Defined.

Lemma depth_one_engines_coincide_opening :
  cache_finite (∅ : cache)
  /\ select_move_alphabeta 1 Othello.start4 1 1 0 0 ∅
     = select_move_minimax 1 Othello.start4 1 1 0 ∅.
Proof.
  split; [apply cache_finite_empty |].
  exact (depth_one_engines_coincide (rules := othello_rules)
           1 Othello.start4 1 0 ∅ cache_finite_empty).
Defined.

Lemma alphabeta_window_sound_opening :
  ext_lt (Fin (-1)) (Fin 1)
  /\ exists bm v cm' am av ca',
      minimax_max_node 2 Othello.start4 1 2 0 ∅ = Ret ((bm, v), cm')
      /\ alphabeta_max_node 2 Othello.start4 1 (Fin (-1)) (Fin 1) 2 0 0 ∅
        = Ret ((am, av), ca')
      /\ (ext_le v (Fin (-1)) -> ext_le av (Fin (-1)))
      /\ (ext_le (Fin 1) v -> ext_le (Fin 1) av)
      /\ (ext_lt (Fin (-1)) v -> ext_lt v (Fin 1) -> av = v /\ am = bm).
Proof.
  split; [reflexivity |].
  exact (proj1 (alphabeta_window_sound (rules := othello_rules) _ _
                  othello_cell_filling 2 Othello.start4 1 2 0
                  (Fin (-1)) (Fin 1) ∅ ∅
                  (opening_enough 2 2 ltac:(lia)) opening_tree_nodup
                  (unseen_empty _) (unseen_empty _) eq_refl)).
Defined.

Lemma ordering_block_sorts_opening :
  1 <> 0
  /\ exists entries,
      ordering_block Othello.start4 1 1 (get_possible_moves Othello.start4 1)
      = map (fun e => ScoredEntry (fst e) (snd e)) entries
      /\ entries
         ≡ₚ scored_moves Othello.start4 1 (get_possible_moves Othello.start4 1)
      /\ StronglySorted (fun a b : move * Z => snd b <= snd a) entries
      /\ forall u,
          filter (fun e : move * Z => snd e = u) entries
          = filter (fun e : move * Z => snd e = u)
              (scored_moves Othello.start4 1
                 (get_possible_moves Othello.start4 1)).
Proof.
  split; [lia |].
  exact (ordering_block_sorts (rules := othello_rules) Othello.start4 1 1
           (get_possible_moves Othello.start4 1) ltac:(lia)).
Defined.

Lemma minimax_computes_tree_value_opening :
  NoDup (subtree (rules := othello_rules) 2 Othello.start4 1 2)
  /\ exists bm c',
      minimax_max_node 2 Othello.start4 1 2 0 ∅
      = Ret ((bm, tree_value 2 true Othello.start4 1 2), c').
Proof.
  split; [exact opening_tree_nodup |].
  exact (proj1 (minimax_computes_tree_value (rules := othello_rules) _ _
                  othello_cell_filling 2 Othello.start4 1 2 0 ∅
                  (opening_enough 2 2 ltac:(lia)) opening_tree_nodup
                  (unseen_empty _))).
Defined.
